(** * PCXtoTTF: glyph synthesis and font-table assembly

    A shallow embedding of [src/font_creator.py] (class [FontCreator]) and of
    the part of [src/image_processor.py] that fixes the number of cells, with
    the properties of the vectorizer, of the code-point mapper and of the
    assembled tables.

    Conventions of the embedding.
    - Python integers are unbounded: codes and coordinates are [Z]; loop
      indices produced by [range] and [enumerate] are [nat].
    - A [dict] is a [gmap]; item assignment [d[k] = v] is [<[k:=v]> d].
    - The [TTFont] object under construction is threaded explicitly through
      the construction steps.
    - [print] calls only log to the console and are left out.  A log line
      of the glyph loop prints [chr(ascii_value)]: a console that cannot
      encode that character ends the run there, on a UTF-8 console from
      index 55296 on (a surrogate), and [chr] itself raises from index
      1114112 on.  The embedding describes the runs whose log lines print;
      on a UTF-8 console these are the runs on at most 55296 images. *)

From Stdlib Require Import ZArith List String Ascii Lia.
From Stdlib Require Import Decimal DecimalNat DecimalString.
From stdpp Require Import base gmap list strings.

Open Scope string_scope.
Open Scope list_scope.
Open Scope Z_scope.

(** ** Raster cells *)

(** One colour sample.  The image is decoded to RGBA, the spec allows three
    or four channels; only the first three are ever read. *)
Record pixel := Pixel {
  chan0 : Z;
  chan1 : Z;
  chan2 : Z;
  chan3 : option Z
}.

(** A character image, [char_img[y, x]]: a list of rows, top row first. *)
Abbreviation ndarray := (list (list pixel)).

(** [char_img.shape[:2]] *)
Definition shape (char_img : ndarray) : nat * nat :=
  (length char_img, length (hd [] char_img)).

(** [char_img[y, x]] *)
Definition getitem (char_img : ndarray) (y x : nat) : option pixel :=
  char_img !! y ≫= (λ row : list pixel, row !! x).

(** A numpy array is rectangular; [extract_characters] cuts 8x8 windows. *)
Definition is_cell (h w : nat) (char_img : ndarray) : Prop :=
  length char_img = h ∧ Forall (λ row : list pixel, length row = w) char_img.

(** [is_background], the local helper of [_create_glyphs]. *)
Definition is_background (p : pixel) : bool :=
  let '(bg_r, bg_g, bg_b) := (0x9F, 0x5B, 0x53) in
  let '(r, g, b) := (chan0 p, chan1 p, chan2 p) in
  (r =? bg_r) && (g =? bg_g) && (b =? bg_b).

(** ** The glyph pen

    [TTGlyphPen] belongs to fontTools.  The embedding keeps the contours the
    pen has closed and the points of the path that is open.  [moveTo] opens
    a path, [lineTo] adds a point to it.  [closePath] follows the library:
    a path of one point (an anchor) is dropped; otherwise, when the last
    point of the path equals its first, the last point is removed; then the
    path is closed.  [glyph ()] hands back the closed contours in the order
    they were drawn.

    The library raises when [moveTo] finds a path still open and when
    [closePath] finds none open; the code never does either (every
    [closePath] follows a [moveTo] and its [lineTo]s), and the embedding
    leaves the pen as it is in those two cases. *)

Definition point : Type := Z * Z.
Definition contour : Type := list point.
Definition glyph_outline : Type := list contour.

Record TTGlyphPen := mkPen {
  pen_closed : list contour;
  pen_current : contour
}.

Definition TTGlyphPen_new : TTGlyphPen := mkPen [] [].

Definition moveTo (pt : point) (pen : TTGlyphPen) : TTGlyphPen :=
  mkPen (pen_closed pen) [pt].

Definition lineTo (pt : point) (pen : TTGlyphPen) : TTGlyphPen :=
  mkPen (pen_closed pen) (pen_current pen ++ [pt]).

(** [self.points[startPt] == self.points[endPt]] *)
Definition point_eqb (p q : point) : bool :=
  (fst p =? fst q) && (snd p =? snd q).

(** The contour [closePath] stores for a path of two points or more: the
    path without its last point when that point repeats the first. *)
Definition closed_contour (path : contour) : contour :=
  match path with
  | [] => []
  | start :: _ =>
      if point_eqb start (List.last path start) then removelast path
      else path
  end.

Definition closePath (pen : TTGlyphPen) : TTGlyphPen :=
  match pen_current pen with
  | [] => pen
  | [_] => mkPen (pen_closed pen) []
  | _ :: _ :: _ =>
      mkPen (pen_closed pen ++ [closed_contour (pen_current pen)]) []
  end.

Definition pen_glyph (pen : TTGlyphPen) : glyph_outline := pen_closed pen.

(** ** Glyph names: [f'glyph{k:05d}'] *)

Definition str_of_nat (n : nat) : string :=
  NilEmpty.string_of_uint (Nat.to_uint n).

Fixpoint zeros (k : nat) : string :=
  match k with
  | O => ""
  | S k' => String "0" (zeros k')
  end.

(** [{n:05d}]: decimal digits, padded with zeros on the left to width 5. *)
Definition format_05d (n : nat) : string :=
  let digits := str_of_nat n in
  zeros (5 - String.length digits)%nat +:+ digits.

(** [f'glyph{i+1:05d}'] *)
Definition glyph_name (i : nat) : string :=
  "glyph" +:+ format_05d (i + 1)%nat.

(** ** The font object *)

(** The tables of the [TTFont] that depend on the glyph set.  The head, OS/2,
    name and post tables hold constants only. *)
Record TTFont := mkTTFont {
  glyphOrder : list string;
  hhea_numberOfHMetrics : nat;
  maxp_numGlyphs : nat;
  hmtx_metrics : gmap string (Z * Z);
  cmap_cmap : gmap Z string;          (* font['cmap'].tables[0].cmap *)
  glyf_glyphs : gmap string glyph_outline
}.

Definition TTFont_new : TTFont := mkTTFont [] 0 0 ∅ ∅ ∅.

Definition setGlyphOrder (names : list string) (font : TTFont) : TTFont :=
  mkTTFont names (hhea_numberOfHMetrics font) (maxp_numGlyphs font)
           (hmtx_metrics font) (cmap_cmap font) (glyf_glyphs font).

Definition set_metric (name : string) (m : Z * Z) (font : TTFont) : TTFont :=
  mkTTFont (glyphOrder font) (hhea_numberOfHMetrics font) (maxp_numGlyphs font)
           (<[name := m]> (hmtx_metrics font)) (cmap_cmap font)
           (glyf_glyphs font).

Definition set_cmap (code : Z) (name : string) (font : TTFont) : TTFont :=
  mkTTFont (glyphOrder font) (hhea_numberOfHMetrics font) (maxp_numGlyphs font)
           (hmtx_metrics font) (<[code := name]> (cmap_cmap font))
           (glyf_glyphs font).

Definition set_glyph (name : string) (g : glyph_outline) (font : TTFont)
  : TTFont :=
  mkTTFont (glyphOrder font) (hhea_numberOfHMetrics font) (maxp_numGlyphs font)
           (hmtx_metrics font) (cmap_cmap font)
           (<[name := g]> (glyf_glyphs font)).

(** ** [FontCreator] *)

Record FontCreator := mkFontCreator {
  characters : list ndarray;
  char_width : Z;
  char_height : Z;
  units_per_em : Z;
  scale : Z;
  font : option TTFont;
  glyph_names : option (list string)
}.

(** [__init__]: the two size arguments are ignored, the grid is fixed. *)
Definition FontCreator_init (chars : list ndarray)
    (width height : Z) : FontCreator :=
  let units := 1024 in
  mkFontCreator chars 8 8 units (units / 8) None None.

(** ** The vectorizer: the pixel loop of [_create_glyphs] *)

(** The loop variables [pen], [has_pixels] and [pixel_count]. *)
Record scan_state := mkScan {
  scan_pen : TTGlyphPen;
  has_pixels : bool;
  pixel_count : Z
}.

(** The body of [if not is_background(char_img[y, x])]. *)
Definition draw_pixel (self : FontCreator) (x y : nat) (st : scan_state)
  : scan_state :=
  let x0 := Z.of_nat x * scale self in
  let y0 := (7 - Z.of_nat y) * scale self in
  let x1 := (Z.of_nat x + 1) * scale self in
  let y1 := (8 - Z.of_nat y) * scale self in
  let pen := moveTo (x0, y0) (scan_pen st) in
  let pen := lineTo (x1, y0) pen in
  let pen := lineTo (x1, y1) pen in
  let pen := lineTo (x0, y1) pen in
  let pen := closePath pen in
  mkScan pen true (pixel_count st + 1).

(** One turn of [for x in range(width)].  [x] and [y] range over the shape
    of the array, so the lookup always succeeds on a rectangular array. *)
Definition scan_pixel (self : FontCreator) (char_img : ndarray) (y : nat)
    (st : scan_state) (x : nat) : scan_state :=
  match getitem char_img y x with
  | Some px => if negb (is_background px) then draw_pixel self x y st else st
  | None => st
  end.

(** One turn of [for y in range(height)]. *)
Definition scan_row (self : FontCreator) (char_img : ndarray) (width : nat)
    (st : scan_state) (y : nat) : scan_state :=
  foldl (scan_pixel self char_img y) st (seq 0 width).

Definition scan_cell (self : FontCreator) (char_img : ndarray) : scan_state :=
  let '(height, width) := shape char_img in
  foldl (scan_row self char_img width) (mkScan TTGlyphPen_new false 0)
        (seq 0 height).

(** The pen of an empty glyph: [moveTo((0, 0)); lineTo((0, 0)); closePath()].
    The second point repeats the first, so the contour it closes has the
    single point [(0, 0)]. *)
Definition empty_pen : TTGlyphPen :=
  closePath (lineTo (0, 0) (moveTo (0, 0) TTGlyphPen_new)).

(** The outline stored for one character image: the scan, then the
    replacement pen [if not has_pixels], then [pen.glyph()]. *)
Definition vectorize (self : FontCreator) (char_img : ndarray)
  : glyph_outline :=
  let st := scan_cell self char_img in
  let pen := if negb (has_pixels st) then empty_pen else scan_pen st in
  pen_glyph pen.

(** ** The code-point mapper: the tail of the loop body *)

Definition ord (c : ascii) : Z := Z.of_N (N_of_ascii c).

(** [base_ascii = 33 + i - 1] *)
Definition base_ascii (i : nat) : Z := 33 + Z.of_nat i - 1.

(** [original_pos = base_ascii + 32] *)
Definition original_pos (i : nat) : Z := base_ascii i + 32.

(** The two conditionals that settle [ascii_value], as a function of the two
    values they read. *)
Definition remap (base original : Z) : Z :=
  let ascii_value :=
    if (ord "a" <=? base) && (base <=? ord "z") then base else base - 32 in
  if (32 <=? original) && (original <=? 63) then 62 + (original - 32)
  else ascii_value.

Definition ascii_value (i : nat) : Z := remap (base_ascii i) (original_pos i).

Definition is_lower (c : Z) : bool := (ord "a" <=? c) && (c <=? ord "z").

(** The assignments into [font['cmap'].tables[0].cmap] for glyph [i]. *)
Definition map_character (i : nat) (name : string) (font : TTFont) : TTFont :=
  let font := set_cmap (ascii_value i) name font in
  let font :=
    if is_lower (ascii_value i) then
      let uppercase_ascii := ascii_value i - 32 in
      set_cmap uppercase_ascii name font
    else font in
  if 61 <? original_pos i then
    let extended_ascii := ascii_value i + 128 in
    let font := set_cmap extended_ascii name font in
    let private_use_code := 0xE000 + (original_pos i - 32) in
    set_cmap private_use_code name font
  else font.

(** The whole body of [for i, char_img in enumerate(self.characters)]. *)
Definition process_character (self : FontCreator) (i : nat)
    (char_img : ndarray) (font : TTFont) : TTFont :=
  let name := glyph_name i in
  let font := set_glyph name (vectorize self char_img) font in
  let font := set_metric name (char_width self * scale self, 0) font in
  map_character i name font.

(** [for i, x in enumerate(l)] starting at index [i], on a threaded state. *)
Fixpoint for_enumerate {A St : Type} (body : nat → A → St → St) (i : nat)
    (l : list A) (st : St) : St :=
  match l with
  | [] => st
  | x :: l' => for_enumerate body (S i) l' (body i x st)
  end.

Definition notdef_pen (self : FontCreator) : TTGlyphPen :=
  let pen := moveTo (0, 0) TTGlyphPen_new in
  let pen := lineTo (char_width self * scale self, 0) pen in
  let pen := lineTo (char_width self * scale self,
                     char_height self * scale self) pen in
  let pen := lineTo (0, char_height self * scale self) pen in
  closePath pen.

Definition _create_glyphs (self : FontCreator) (font : TTFont) : TTFont :=
  let font := set_glyph ".notdef" (pen_glyph (notdef_pen self)) font in
  let font := set_metric ".notdef" (char_width self * scale self, 0) font in
  let font := for_enumerate (process_character self) 0 (characters self) font in
  let space_glyph := glyph_name (length (characters self)) in
  let font := set_glyph space_glyph (pen_glyph empty_pen) font in
  let font := set_metric space_glyph (char_width self * scale self, 0) font in
  set_cmap 32 space_glyph font.

(** ** Table set-up and [create_font] *)

Definition _create_hhea_table (names : list string) (font : TTFont) : TTFont :=
  mkTTFont (glyphOrder font) (length names) (maxp_numGlyphs font)
           (hmtx_metrics font) (cmap_cmap font) (glyf_glyphs font).

Definition _create_maxp_table (names : list string) (font : TTFont) : TTFont :=
  mkTTFont (glyphOrder font) (hhea_numberOfHMetrics font) (length names)
           (hmtx_metrics font) (cmap_cmap font) (glyf_glyphs font).

Definition _create_hmtx_table (font : TTFont) : TTFont :=
  mkTTFont (glyphOrder font) (hhea_numberOfHMetrics font) (maxp_numGlyphs font)
           ∅ (cmap_cmap font) (glyf_glyphs font).

(** [format4.cmap = {}; format4.cmap[0] = '.notdef'] *)
Definition _create_cmap_table (font : TTFont) : TTFont :=
  mkTTFont (glyphOrder font) (hhea_numberOfHMetrics font) (maxp_numGlyphs font)
           (hmtx_metrics font) (<[0 := ".notdef"]> ∅) (glyf_glyphs font).

Definition _create_glyf_table (font : TTFont) : TTFont :=
  mkTTFont (glyphOrder font) (hhea_numberOfHMetrics font) (maxp_numGlyphs font)
           (hmtx_metrics font) (cmap_cmap font) ∅.

(** The glyph order built at the top of [create_font]. *)
Definition make_glyph_names (chars : list ndarray) : list string :=
  let names := [".notdef"] in
  let names := names ++ map glyph_name (seq 0 (length chars)) in
  names ++ [glyph_name (length chars)].

Definition set_font (self : FontCreator) (names : list string) (f : TTFont)
  : FontCreator :=
  mkFontCreator (characters self) (char_width self) (char_height self)
                (units_per_em self) (scale self) (Some f) (Some names).

(** [create_font]: the updated object and the returned font. *)
Definition create_font (self : FontCreator) : FontCreator * TTFont :=
  let names := make_glyph_names (characters self) in
  let font := setGlyphOrder names TTFont_new in
  let font := _create_hhea_table names font in
  let font := _create_maxp_table names font in
  let font := _create_hmtx_table font in
  let font := _create_cmap_table font in
  let font := _create_glyf_table font in
  let font := _create_glyphs self font in
  (set_font self names font, font).

(** ** [save_font] *)

(** The exceptions that leave the code: the two it raises itself, and an
    exception raised inside a library call that it does not catch ([call]
    names the call, [what] is the exception as the library reports it). *)
Inductive exception :=
  | ValueError (msg : string)
  | IOError (msg : string)
  | LibraryError (call : string) (what : string).

(** The font writer, [TTFont.save] of fontTools: given the font and the
    path it writes the file ([None]) or raises ([Some what]).  What it does
    with a given font is the library's business, so it is a parameter. *)
Definition writer : Type := TTFont → string → option string.

(** What a call of [save_font] ends in: an exception, or the file written
    by the writer. *)
Inductive save_outcome :=
  | Raised (e : exception)
  | Saved (f : TTFont) (output_path : string).

(** [self.font.save(output_path)]: the writer is called on the font, and
    what it raises is passed on. *)
Definition hand_to_writer (save : writer) (f : TTFont) (output_path : string)
  : save_outcome :=
  match save f output_path with
  | None => Saved f output_path
  | Some what => Raised (LibraryError "TTFont.save" what)
  end.

Definition save_font (save : writer) (self : FontCreator)
    (output_path : string) : save_outcome :=
  match font self with
  | None => Raised (ValueError "Font not created. Call create_font() first.")
  | Some f => hand_to_writer save f output_path
  end.

(** ** The cells of the grid *)

(** [image_array[y_start:y_start + 8, x_start:x_start + 8]] *)
Definition window (image_array : ndarray) (y_start x_start : nat) : ndarray :=
  map (λ row : list pixel, take 8 (drop x_start row))
      (take 8 (drop y_start image_array)).

(** The cells [extract_characters] returns: the windows of a fixed grid of
    16 columns and 6 rows, row-major.  The method itself, with its check
    that an image is loaded and the debug image it saves per cell, is
    [ImageProcessor.extract_characters] below. *)
Definition extract_characters (image_array : ndarray) : list ndarray :=
  let chars_per_row := 16%nat in
  let chars_per_col := 6%nat in
  flat_map (λ row : nat,
    map (λ col : nat, window image_array (row * 8) (col * 8))
        (seq 0 chars_per_row))
    (seq 0 chars_per_col).

(** The font a run produces from a list of character images. *)
Definition font_of (chars : list ndarray) : TTFont :=
  snd (create_font (FontCreator_init chars 8 8)).

(** ** Vocabulary of the statements *)

(** Reading a decimal string back, leading zeros allowed. *)
Definition nat_of_str (s : string) : option nat :=
  Nat.of_uint <$> NilEmpty.uint_of_string s.

(** [writes i c]: the mapping step of glyph [i] assigns code [c]. *)
Definition writes (i : nat) (c : Z) : bool :=
  (c =? ascii_value i)
  || (is_lower (ascii_value i) && (c =? ascii_value i - 32))
  || ((61 <? original_pos i)
      && ((c =? ascii_value i + 128) || (c =? 0xE000 + (original_pos i - 32)))).

(** The font handed to the loop of [_create_glyphs] in a run on [chars]:
    tables set up by [create_font], [.notdef] drawn. *)
Definition font_before_loop (chars : list ndarray) : TTFont :=
  mkTTFont (make_glyph_names chars) (length (make_glyph_names chars))
           (length (make_glyph_names chars))
           (<[".notdef" := (1024, 0)]> ∅)
           (<[0 := ".notdef"]> ∅)
           (<[".notdef" := [[(0, 0); (1024, 0); (1024, 1024); (0, 1024)]]]> ∅).

(** The font when the loop over the character images has finished. *)
Definition font_after_loop (chars : list ndarray) : TTFont :=
  for_enumerate (process_character (FontCreator_init chars 8 8)) 0 chars
                (font_before_loop chars).

(** The pixel at column [x] of row [y] is ink: present and not the
    background colour. *)
Definition is_ink (char_img : ndarray) (y x : nat) : bool :=
  match getitem char_img y x with
  | Some px => negb (is_background px)
  | None => false
  end.

(** The ink pixels of an image as [(x, y)] positions, top row first and
    left to right within a row. *)
Definition ink_pixels (char_img : ndarray) : list (nat * nat) :=
  let '(height, width) := shape char_img in
  flat_map (λ y : nat,
    map (λ x : nat, (x, y)) (List.filter (is_ink char_img y) (seq 0 width)))
    (seq 0 height).

(** The number of ink pixels, counted on the samples themselves. *)
Definition ink_count (char_img : ndarray) : nat :=
  length (List.filter (λ px : pixel, negb (is_background px)) (concat char_img)).

(** The square of pixel [(x, y)] for a scale of [s] design units per pixel,
    in the order the pen draws it. *)
Definition drawn_square (s : Z) (xy : nat * nat) : contour :=
  let '(x, y) := xy in
  [ (Z.of_nat x * s, (7 - Z.of_nat y) * s);
    ((Z.of_nat x + 1) * s, (7 - Z.of_nat y) * s);
    ((Z.of_nat x + 1) * s, (8 - Z.of_nat y) * s);
    (Z.of_nat x * s, (8 - Z.of_nat y) * s) ].

(** The spec's square for pixel [(x, y)]: corners from [(x*128, (7-y)*128)]
    to [((x+1)*128, (8-y)*128)]. *)
Definition square_path (xy : nat * nat) : contour :=
  let '(x, y) := xy in
  [ (Z.of_nat x * 128, (7 - Z.of_nat y) * 128);
    ((Z.of_nat x + 1) * 128, (7 - Z.of_nat y) * 128);
    ((Z.of_nat x + 1) * 128, (8 - Z.of_nat y) * 128);
    (Z.of_nat x * 128, (8 - Z.of_nat y) * 128) ].

(** The paths of an outline that have four points. *)
Definition four_point_paths (g : glyph_outline) : list contour :=
  List.filter (λ c : contour, (length c =? 4)%nat) g.

(** The zero-area contour of an empty glyph: the single point left of the
    path from [(0, 0)] to [(0, 0)]. *)
Definition degenerate_path : contour := [(0, 0)].

(** The loop invariant of the scan: [has_pixels] is set exactly when a path
    has been closed. *)
Definition scan_inv (st : scan_state) : Prop :=
  has_pixels st = true ↔ pen_closed (scan_pen st) ≠ [].

(** The primary code of glyph [i] in the spec's words (rules 1 to 4 of the
    mapper): base, original position, the lowercase test, the remap
    override. *)
Definition spec_primary_code (i : Z) : Z :=
  let base := 33 + i - 1 in
  let original := base + 32 in
  let primary :=
    if bool_decide (97 ≤ base ≤ 122) then base else base - 32 in
  if bool_decide (32 ≤ original ≤ 63) then 62 + (original - 32) else primary.



(** Sample inputs. *)
Definition background_pixel : pixel := Pixel 0x9F 0x5B 0x53 (Some 255).
Definition black_pixel : pixel := Pixel 0 0 0 (Some 255).

Definition blank_cell : ndarray := repeat (repeat background_pixel 8) 8.

(** One ink pixel, at column 3 of row 2. *)
Definition dot_cell : ndarray :=
  <[2%nat := <[3%nat := black_pixel]> (repeat background_pixel 8)]> blank_cell.



(** ** The tables of constants that depend on the grid *)

(** The fields [_create_head_table] derives from the object. *)
Record head_table := mkHead {
  head_unitsPerEm : Z;
  head_xMin : Z;
  head_yMin : Z;
  head_xMax : Z;
  head_yMax : Z;
  head_lowestRecPPEM : Z
}.

Definition _create_head_table (self : FontCreator) : head_table :=
  mkHead (units_per_em self) 0 0
         (char_width self * scale self) (char_height self * scale self) 8.

(** The metric fields [_create_hhea_table] sets beside [numberOfHMetrics]. *)
Record hhea_metrics := mkHhea {
  hhea_ascent : Z;
  hhea_descent : Z;
  hhea_lineGap : Z;
  hhea_advanceWidthMax : Z;
  hhea_minLeftSideBearing : Z;
  hhea_minRightSideBearing : Z;
  hhea_xMaxExtent : Z
}.

Definition hhea_metrics_of (self : FontCreator) : hhea_metrics :=
  mkHhea (char_height self * scale self) 0 (scale self)
         (char_width self * scale self) 0 0 (char_width self * scale self).

(** [maxp.maxPoints] and [maxp.maxContours] as [_create_maxp_table] sets
    them. *)
Definition maxp_maxPoints : Z := 4.
Definition maxp_maxContours : Z := 1.

(** ** [ImageProcessor] *)

Module ImageProcessor.

Record t := mk {
  pcx_path : string;
  image_array : option ndarray;
  char_width : Z;
  char_height : Z
}.

(** [__init__] *)
Definition init (pcx_path : string) : t := mk pcx_path None 8 8.

(** [load_image].  Opening and decoding the file is the work of PIL; its
    outcome is the argument [decoded]: the RGBA array, or the text of the
    exception it raised, which the method wraps in an [IOError]. *)
Definition load_image (decoded : string + ndarray) (self : t)
  : exception + (t * ndarray) :=
  match decoded with
  | inl e => inl (IOError ("Error loading PCX image: " +:+ e))
  | inr arr =>
      inr (mk (pcx_path self) (Some arr) (char_width self) (char_height self),
           arr)
  end.

(** [detect_character_size] *)
Definition detect_character_size (self : t) : Z * Z :=
  (char_width self, char_height self).

(** [{n:03d}] *)
Definition format_03d (n : nat) : string :=
  let digits := str_of_nat n in
  zeros (3 - String.length digits)%nat +:+ digits.

(** [f"debug_char_ascii_{ascii_value:03d}.png"] *)
Definition debug_name (ascii_value : nat) : string :=
  "debug_char_ascii_" +:+ format_03d ascii_value +:+ ".png".

(** A window without a pixel: no row, or rows without a column.  A slice
    that starts at or past the edge of the image is such a window. *)
Definition is_empty (char_img : ndarray) : bool :=
  match shape char_img with
  | (O, _) => true
  | (_, O) => true
  | _ => false
  end.

(** The loop variables of [extract_characters]: the list built so far,
    the running code, and the debug images saved so far (file name and
    content). *)
Record loop_state := mkLoop {
  ls_characters : list ndarray;
  ls_ascii_value : nat;
  ls_saved : list (string * ndarray)
}.

(** The body of the inner loop when the debug image is saved. *)
Definition save_and_append (image_array : ndarray) (row : nat)
    (st : loop_state) (col : nat) : loop_state :=
  let y_start := (row * 8)%nat in
  let x_start := (col * 8)%nat in
  let char_img := window image_array y_start x_start in
  mkLoop (ls_characters st ++ [char_img])
         (ls_ascii_value st + 1)%nat
         (ls_saved st ++ [(debug_name (ls_ascii_value st), char_img)]).

(** One turn of the inner loop.  [debug_img.save] is a call into PIL, which
    raises on an image without pixels; the exception is not caught and ends
    the method. *)
Definition extract_step (image_array : ndarray) (row : nat)
    (st : exception + loop_state) (col : nat) : exception + loop_state :=
  match st with
  | inl e => inl e
  | inr st =>
      if is_empty (window image_array (row * 8) (col * 8))
      then inl (LibraryError "Image.save" (debug_name (ls_ascii_value st)))
      else inr (save_and_append image_array row st col)
  end.

(** [extract_characters]: the cells, and the debug images written on the
    way. *)
Definition extract_characters (self : t)
  : exception + (list ndarray * list (string * ndarray)) :=
  match image_array self with
  | None => inl (ValueError "Image not loaded. Call load_image() first.")
  | Some image_array =>
      let chars_per_row := 16%nat in
      let chars_per_col := 6%nat in
      let st :=
        foldl (λ (st : exception + loop_state) (row : nat),
                 foldl (extract_step image_array row) st
                       (seq 0 chars_per_row))
              (inr (mkLoop [] 32 [])) (seq 0 chars_per_col) in
      match st with
      | inl e => inl e
      | inr st => inr (ls_characters st, ls_saved st)
      end
  end.

End ImageProcessor.

(** ** The pipeline *)

(** [convert_pcx_to_ttf].  [decoded] is what opening and decoding the file
    at [pcx_path] gives, [save] is the font writer. *)
Definition convert_pcx_to_ttf (save : writer) (decoded : string + ndarray)
    (pcx_path output_path : string) : save_outcome :=
  let processor := ImageProcessor.init pcx_path in
  match ImageProcessor.load_image decoded processor with
  | inl e => Raised e
  | inr (processor, _) =>
      let '(char_width, char_height) :=
        ImageProcessor.detect_character_size processor in
      match ImageProcessor.extract_characters processor with
      | inl e => Raised e
      | inr (characters, _) =>
          let creator := FontCreator_init characters char_width char_height in
          let '(creator, _) := create_font creator in
          save_font save creator output_path
      end
  end.

(** ** Further vocabulary *)

(** The last glyph among [i, i + len) whose mapping step assigns code [c]. *)
Fixpoint last_assigner (i len : nat) (c : Z) : option nat :=
  match len with
  | O => None
  | S len' =>
      match last_assigner (S i) len' c with
      | Some j => Some j
      | None => if writes i c then Some i else None
      end
  end.

(** What code [c] resolves to after a run on [n] character images, by the
    order of the assignments: the trailing glyph at 32, else the last
    content glyph that took the code, else the initial entry at 0. *)
Definition resolve (n : nat) (c : Z) : option string :=
  if c =? 32 then Some (glyph_name n)
  else match last_assigner 0 n c with
       | Some j => Some (glyph_name j)
       | None => if c =? 0 then Some ".notdef" else None
       end.

(** The glyph index each code resolves to in a run on the 96 cells of the
    grid (index 96 is the trailing glyph). *)
Definition grid_index (c : Z) : option Z :=
  if c =? 32 then Some 96
  else if (0 <=? c) && (c <=? 95) then Some c
  else if (97 <=? c) && (c <=? 122) then Some (c - 32)
  else if (128 <=? c) && (c <=? 192) then Some (c - 128)
  else if (219 <=? c) && (c <=? 223) then Some (c - 128)
  else if (225 <=? c) && (c <=? 250) then Some (c - 160)
  else if (57376 <=? c) && (c <=? 57471) then Some (c - 57376)
  else None.

(** The scan keeps [pixel_count] equal to the number of closed paths. *)
Definition count_inv (st : scan_state) : Prop :=
  pixel_count st = Z.of_nat (length (pen_closed (scan_pen st))).

(** A point lies in the bounding box of the head table. *)
Definition in_bbox (h : head_table) (pt : point) : Prop :=
  head_xMin h ≤ fst pt ≤ head_xMax h ∧ head_yMin h ≤ snd pt ≤ head_yMax h.

(** The number of points of an outline, all contours together. *)
Definition point_count (g : glyph_outline) : nat := length (concat g).

(** Every window of the grid has a pixel: the image has more than 40 rows
    and each row more than 120 pixels. *)
Definition reaches_grid (image_array : ndarray) : Prop :=
  (41 ≤ length image_array)%nat
  ∧ Forall (λ row : list pixel, (121 ≤ length row)%nat) image_array.

(** The state of the loop of [extract_characters] is an exception of the
    debug-image save. *)
Definition save_failed (st : exception + ImageProcessor.loop_state) : Prop :=
  ∃ name : string, st = inl (LibraryError "Image.save" name).

(** A writer that writes every font. *)
Definition obliging_writer : writer := λ _ _, None.


(** An image large enough for the 16x6 grid of 8x8 windows. *)
Definition covers_grid (image_array : ndarray) : Prop :=
  (48 ≤ length image_array)%nat
  ∧ Forall (λ row : list pixel, (128 ≤ length row)%nat) image_array.

(** A sample image: 48 rows of 128 background pixels, with one black pixel
    at row 10, column 21. *)
Definition sample_image : ndarray :=
  <[10%nat := <[21%nat := black_pixel]> (repeat background_pixel 128)]>
    (repeat (repeat background_pixel 128) 48).

(** * Properties *)

(** ** Glyph names are pairwise distinct *)

Section Names.

Lemma uint_of_string_zeros (k : nat) (s : string) (d : uint) :
  NilEmpty.uint_of_string s = Some d →
  NilEmpty.uint_of_string (zeros k +:+ s) = Some (Nat.iter k D0 d).
Proof.
  intros Hs. induction k as [|k IH]; simpl.
  - exact Hs.
  - rewrite IH. reflexivity.
Qed.

Lemma of_uint_leading_zeros (k : nat) (d : uint) :
  Nat.of_uint (Nat.iter k D0 d) = Nat.of_uint d.
Proof.
  induction k as [|k IH]; simpl; [reflexivity|].
  rewrite <- IH. reflexivity.
Qed.

Lemma nat_of_str_format (n : nat) : nat_of_str (format_05d n) = Some n.
Proof.
  unfold nat_of_str, format_05d, str_of_nat.
  rewrite (uint_of_string_zeros _ _ (Nat.to_uint n)) by apply NilEmpty.usu.
  simpl. rewrite of_uint_leading_zeros, DecimalNat.Unsigned.of_to.
  reflexivity.
Qed.

Lemma format_05d_inj (n m : nat) : format_05d n = format_05d m → n = m.
Proof.
  intros H. apply (f_equal nat_of_str) in H.
  rewrite !nat_of_str_format in H. congruence.
Qed.

Lemma glyph_name_inj (i j : nat) : glyph_name i = glyph_name j → i = j.
Proof.
  unfold glyph_name. cbn [String.append]. intros H.
  injection H as H. apply format_05d_inj in H. lia.
Qed.

Lemma glyph_name_not_notdef (i : nat) : glyph_name i ≠ ".notdef".
Proof. unfold glyph_name. cbn [String.append]. discriminate. Qed.

Example glyph_name_first : glyph_name 0 = "glyph00001".
Proof. reflexivity. Qed.

Example glyph_name_123 : glyph_name 122 = "glyph00123".
Proof. reflexivity. Qed.

End Names.

(** ** Arithmetic of the mapper *)

Section Mapper.

Lemma original_pos_eq (i : nat) : original_pos i = 64 + Z.of_nat i.
Proof. unfold original_pos, base_ascii. lia. Qed.

Lemma is_lower_spec (c : Z) : is_lower c = true ↔ 97 ≤ c ≤ 122.
Proof.
  unfold is_lower. change (ord "a") with 97. change (ord "z") with 122.
  rewrite andb_true_iff, !Z.leb_le. reflexivity.
Qed.

(** The code of glyph [i] before any duplication: indices 65..90 keep
    their base code, every other index gets its own index. *)
Lemma ascii_value_eq (i : nat) :
  ascii_value i =
    if (65 <=? Z.of_nat i) && (Z.of_nat i <=? 90) then Z.of_nat i + 32
    else Z.of_nat i.
Proof.
  unfold ascii_value, remap, original_pos, base_ascii.
  change (ord "a") with 97. change (ord "z") with 122.
  repeat match goal with
         | |- context [Z.leb ?a ?b] => destruct (Z.leb_spec a b)
         end; simpl; lia.
Qed.

Lemma ascii_value_cases (i : nat) :
  (65 ≤ Z.of_nat i ≤ 90 ∧ ascii_value i = Z.of_nat i + 32)
  ∨ ((Z.of_nat i < 65 ∨ 90 < Z.of_nat i) ∧ ascii_value i = Z.of_nat i).
Proof.
  rewrite ascii_value_eq.
  repeat match goal with
         | |- context [Z.leb ?a ?b] => destruct (Z.leb_spec a b)
         end; simpl; lia.
Qed.

Lemma writes_spec (i : nat) (c : Z) :
  writes i c = true ↔
    c = ascii_value i
    ∨ (97 ≤ ascii_value i ≤ 122 ∧ c = ascii_value i - 32)
    ∨ c = ascii_value i + 128
    ∨ c = 57376 + Z.of_nat i.
Proof.
  unfold writes.
  rewrite !orb_true_iff, !andb_true_iff, is_lower_spec, !Z.eqb_eq, Z.ltb_lt.
  rewrite original_pos_eq. lia.
Qed.

Lemma writes_false (i : nat) (c : Z) :
  writes i c = false ↔
    c ≠ ascii_value i
    ∧ ¬ (97 ≤ ascii_value i ≤ 122 ∧ c = ascii_value i - 32)
    ∧ c ≠ ascii_value i + 128
    ∧ c ≠ 57376 + Z.of_nat i.
Proof.
  rewrite <- not_true_iff_false, writes_spec. tauto.
Qed.

(** Indices 0, 32, 64, 65, 90, 91 and 97. *)
Example ascii_value_samples :
  map ascii_value [0; 32; 64; 65; 90; 91; 97]%nat = [0; 32; 64; 97; 122; 91; 97].
Proof. reflexivity. Qed.

End Mapper.

(** ** One mapping step *)

Section Step.

Lemma cmap_map_character (i : nat) (name : string) (f : TTFont) (c : Z) :
  cmap_cmap (map_character i name f) !! c =
    if writes i c then Some name else cmap_cmap f !! c.
Proof.
  unfold map_character, writes.
  destruct (is_lower (ascii_value i)), (61 <? original_pos i);
    cbn [cmap_cmap set_cmap andb orb];
    rewrite ?lookup_insert; repeat case_decide;
    repeat match goal with
           | |- context [Z.eqb ?a ?b] => destruct (Z.eqb_spec a b)
           end; cbn [andb orb]; solve [reflexivity | lia].
Qed.

Lemma glyf_map_character (i : nat) (name : string) (f : TTFont) :
  glyf_glyphs (map_character i name f) = glyf_glyphs f.
Proof.
  unfold map_character.
  destruct (is_lower (ascii_value i)), (61 <? original_pos i); reflexivity.
Qed.

Lemma hmtx_map_character (i : nat) (name : string) (f : TTFont) :
  hmtx_metrics (map_character i name f) = hmtx_metrics f.
Proof.
  unfold map_character.
  destruct (is_lower (ascii_value i)), (61 <? original_pos i); reflexivity.
Qed.

Lemma order_map_character (i : nat) (name : string) (f : TTFont) :
  glyphOrder (map_character i name f) = glyphOrder f.
Proof.
  unfold map_character.
  destruct (is_lower (ascii_value i)), (61 <? original_pos i); reflexivity.
Qed.

Variable self : FontCreator.

Lemma cmap_process_character (i : nat) (img : ndarray) (f : TTFont) (c : Z) :
  cmap_cmap (process_character self i img f) !! c =
    if writes i c then Some (glyph_name i) else cmap_cmap f !! c.
Proof. unfold process_character. rewrite cmap_map_character. reflexivity. Qed.

Lemma glyf_process_character (i : nat) (img : ndarray) (f : TTFont) :
  glyf_glyphs (process_character self i img f) =
    <[glyph_name i := vectorize self img]> (glyf_glyphs f).
Proof. unfold process_character. rewrite glyf_map_character. reflexivity. Qed.

Lemma hmtx_process_character (i : nat) (img : ndarray) (f : TTFont) :
  hmtx_metrics (process_character self i img f) =
    <[glyph_name i := (char_width self * scale self, 0)]> (hmtx_metrics f).
Proof. unfold process_character. rewrite hmtx_map_character. reflexivity. Qed.

Lemma order_process_character (i : nat) (img : ndarray) (f : TTFont) :
  glyphOrder (process_character self i img f) = glyphOrder f.
Proof. unfold process_character. rewrite order_map_character. reflexivity. Qed.

(** ** The loop over the character images *)

Local Abbreviation loop := (for_enumerate (process_character self)).

(** A code no glyph of the loop assigns keeps its entry. *)
Lemma loop_cmap_untouched (cs : list ndarray) (i : nat) (f : TTFont) (c : Z) :
  (∀ j : nat, (i ≤ j < i + length cs)%nat → writes j c = false) →
  cmap_cmap (loop i cs f) !! c = cmap_cmap f !! c.
Proof.
  revert i f. induction cs as [|img cs IH]; intros i f Hno; simpl.
  - reflexivity.
  - rewrite IH.
    + rewrite cmap_process_character, Hno; [reflexivity | simpl; lia].
    + intros j Hj. apply Hno. simpl. lia.
Qed.

(** Last writer wins: a code resolves to the last glyph that assigned it. *)
Lemma loop_cmap_last (cs : list ndarray) (i j : nat) (f : TTFont) (c : Z) :
  (i ≤ j < i + length cs)%nat →
  writes j c = true →
  (∀ k : nat, (j < k < i + length cs)%nat → writes k c = false) →
  cmap_cmap (loop i cs f) !! c = Some (glyph_name j).
Proof.
  revert i f. induction cs as [|img cs IH]; intros i f Hj Hw Hlater; simpl in *.
  - lia.
  - destruct (decide (j = i)) as [->|Hne].
    + rewrite loop_cmap_untouched by (intros k Hk; apply Hlater; lia).
      rewrite cmap_process_character, Hw. reflexivity.
    + apply IH; [lia | exact Hw |].
      intros k Hk. apply Hlater. lia.
Qed.

(** Every entry after the loop was there before or names a glyph of the
    loop that assigned the code. *)
Lemma loop_cmap_origin (cs : list ndarray) (i : nat) (f : TTFont) (c : Z)
    (g : string) :
  cmap_cmap (loop i cs f) !! c = Some g →
  cmap_cmap f !! c = Some g
  ∨ ∃ j : nat, (i ≤ j < i + length cs)%nat ∧ writes j c = true
               ∧ g = glyph_name j.
Proof.
  revert i f. induction cs as [|img cs IH]; intros i f H; simpl in *.
  - left. exact H.
  - apply IH in H as [H | (j & Hj & Hw & ->)].
    + rewrite cmap_process_character in H.
      destruct (writes i c) eqn:Hw.
      * right. exists i. split; [lia|]. split; [exact Hw | congruence].
      * left. exact H.
    + right. exists j. split; [lia|]. split; [exact Hw | reflexivity].
Qed.

Lemma loop_order (cs : list ndarray) (i : nat) (f : TTFont) :
  glyphOrder (loop i cs f) = glyphOrder f.
Proof.
  revert i f. induction cs as [|img cs IH]; intros i f; simpl.
  - reflexivity.
  - rewrite IH. apply order_process_character.
Qed.

(** Outlines and metrics: names are distinct, so no entry is replaced. *)
Lemma loop_glyf_other (cs : list ndarray) (i : nat) (f : TTFont)
    (name : string) :
  (∀ j : nat, (i ≤ j < i + length cs)%nat → name ≠ glyph_name j) →
  glyf_glyphs (loop i cs f) !! name = glyf_glyphs f !! name.
Proof.
  revert i f. induction cs as [|img cs IH]; intros i f Hno; simpl.
  - reflexivity.
  - rewrite IH by (intros j Hj; apply Hno; simpl; lia).
    rewrite glyf_process_character, lookup_insert_ne; [reflexivity|].
    intros Heq. apply (Hno i); [simpl; lia | congruence].
Qed.

Lemma loop_glyf_lookup (cs : list ndarray) (i k : nat) (f : TTFont)
    (img : ndarray) :
  cs !! k = Some img →
  glyf_glyphs (loop i cs f) !! glyph_name (i + k) = Some (vectorize self img).
Proof.
  revert i k f. induction cs as [|x cs IH]; intros i k f Hk; simpl.
  - discriminate.
  - destruct k as [|k]; simpl in Hk.
    + injection Hk as ->. rewrite Nat.add_0_r.
      rewrite loop_glyf_other.
      * rewrite glyf_process_character. apply lookup_insert_eq.
      * intros j Hj Heq. apply glyph_name_inj in Heq. lia.
    + replace (i + S k)%nat with (S i + k)%nat by lia. apply IH, Hk.
Qed.

Lemma loop_hmtx_other (cs : list ndarray) (i : nat) (f : TTFont)
    (name : string) :
  (∀ j : nat, (i ≤ j < i + length cs)%nat → name ≠ glyph_name j) →
  hmtx_metrics (loop i cs f) !! name = hmtx_metrics f !! name.
Proof.
  revert i f. induction cs as [|img cs IH]; intros i f Hno; simpl.
  - reflexivity.
  - rewrite IH by (intros j Hj; apply Hno; simpl; lia).
    rewrite hmtx_process_character, lookup_insert_ne; [reflexivity|].
    intros Heq. apply (Hno i); [simpl; lia | congruence].
Qed.

Lemma loop_hmtx_lookup (cs : list ndarray) (i j : nat) (f : TTFont) :
  (i ≤ j < i + length cs)%nat →
  hmtx_metrics (loop i cs f) !! glyph_name j
    = Some (char_width self * scale self, 0).
Proof.
  revert i f. induction cs as [|x cs IH]; intros i f Hj; simpl in *.
  - lia.
  - destruct (decide (j = i)) as [->|Hne].
    + rewrite loop_hmtx_other.
      * rewrite hmtx_process_character. apply lookup_insert_eq.
      * intros k Hk Heq. apply glyph_name_inj in Heq. lia.
    + apply IH. lia.
Qed.

Lemma loop_hmtx_dom (cs : list ndarray) (i : nat) (f : TTFont) :
  dom (hmtx_metrics (loop i cs f))
    = dom (hmtx_metrics f)
      ∪ list_to_set (map glyph_name (seq i (length cs))).
Proof.
  revert i f. induction cs as [|x cs IH]; intros i f; simpl.
  - symmetry. apply (right_id_L ∅ (∪)).
  - rewrite IH, hmtx_process_character, dom_insert_L.
    rewrite (assoc_L (∪)), (comm_L (∪) (dom (hmtx_metrics f))).
    reflexivity.
Qed.

End Step.

(** ** The assembled font *)

Section Final.

Variable chars : list ndarray.

Local Abbreviation n := (length chars).
Local Abbreviation self0 := (FontCreator_init chars 8 8).

Lemma font_of_unfold :
  font_of chars =
    set_cmap 32 (glyph_name n)
      (set_metric (glyph_name n) (1024, 0)
         (set_glyph (glyph_name n) [[(0, 0)]] (font_after_loop chars))).
Proof. reflexivity. Qed.

Lemma cmap_font_of (c : Z) :
  cmap_cmap (font_of chars) !! c =
    if decide (c = 32) then Some (glyph_name n)
    else cmap_cmap (font_after_loop chars) !! c.
Proof.
  rewrite font_of_unfold. cbn [cmap_cmap set_cmap set_metric set_glyph].
  rewrite lookup_insert. repeat case_decide; congruence.
Qed.

(** Code 32 always resolves to the trailing glyph. *)
Lemma final_space : cmap_cmap (font_of chars) !! 32 = Some (glyph_name n).
Proof. rewrite cmap_font_of. case_decide; congruence. Qed.

(** Any other code resolves to the last content glyph that assigned it. *)
Lemma final_last (j : nat) (c : Z) :
  c ≠ 32 → (j < n)%nat → writes j c = true →
  (∀ k : nat, (j < k < n)%nat → writes k c = false) →
  cmap_cmap (font_of chars) !! c = Some (glyph_name j).
Proof.
  intros Hc Hj Hw Hlater. rewrite cmap_font_of.
  case_decide; [congruence|]. unfold font_after_loop.
  apply (loop_cmap_last self0 chars 0 j);
    [lia | exact Hw | intros k Hk; apply Hlater; lia].
Qed.

(** A code that no glyph assigned keeps the entry of [_create_cmap_table]. *)
Lemma final_untouched (c : Z) :
  c ≠ 32 → (∀ j : nat, (j < n)%nat → writes j c = false) →
  cmap_cmap (font_of chars) !! c
    = (<[0 := ".notdef"]> ∅ : gmap Z string) !! c.
Proof.
  intros Hc Hno. rewrite cmap_font_of. case_decide; [congruence|].
  unfold font_after_loop. rewrite loop_cmap_untouched; [reflexivity|].
  intros j Hj. apply Hno. lia.
Qed.

(** Where an entry of the final map comes from. *)
Lemma final_origin (c : Z) (g : string) :
  cmap_cmap (font_of chars) !! c = Some g →
  (c = 32 ∧ g = glyph_name n)
  ∨ (c = 0 ∧ g = ".notdef" ∧ ∀ j : nat, (j < n)%nat → writes j 0 = false)
  ∨ (c ≠ 32 ∧ ∃ j : nat, (j < n)%nat ∧ writes j c = true ∧ g = glyph_name j).
Proof.
  rewrite cmap_font_of. case_decide as Hc.
  - intros [= <-]. left. split; [exact Hc | reflexivity].
  - intros H. unfold font_after_loop in H.
    destruct (loop_cmap_origin _ _ _ _ _ _ H) as [H0 | (j & Hj & Hw & ->)].
    + right. left. cbn [cmap_cmap font_before_loop] in H0.
      rewrite lookup_insert in H0. case_decide as Hc0; [|by rewrite lookup_empty in H0].
      subst c. injection H0 as <-. split; [reflexivity|]. split; [reflexivity|].
      intros j Hj. destruct (writes j 0) eqn:Hw; [|reflexivity].
      exfalso.
      (* a glyph that assigned code 0 would have replaced the entry *)
      assert (∃ k : nat, (k < n)%nat ∧ writes k 0 = true
                         ∧ ∀ l : nat, (k < l < n)%nat → writes l 0 = false)
        as (k & Hk & Hwk & Hlast).
      { exists 0%nat.
        apply writes_spec in Hw.
        pose proof (ascii_value_cases j) as Hcj.
        assert (j = 0%nat) as -> by lia.
        split; [exact Hj|]. split; [apply writes_spec; lia|].
        intros l Hl. apply writes_false.
        pose proof (ascii_value_cases l). lia. }
      pose proof (loop_cmap_last self0 chars 0 k (font_before_loop chars) 0
                    ltac:(lia) Hwk ltac:(intros; apply Hlast; lia)) as Hl.
      cbn [cmap_cmap font_before_loop] in H.
      rewrite Hl in H.
      apply (glyph_name_not_notdef k). exact (Some_inj _ _ H).
    + right. right. split; [exact Hc|].
      exists j. split; [lia|]. split; [exact Hw | reflexivity].
Qed.

Lemma order_font_of : glyphOrder (font_of chars) = make_glyph_names chars.
Proof.
  rewrite font_of_unfold. cbn [glyphOrder set_cmap set_metric set_glyph].
  unfold font_after_loop. rewrite loop_order. reflexivity.
Qed.

Lemma glyph_name_in_order (j : nat) :
  (j ≤ n)%nat → glyph_name j ∈ make_glyph_names chars.
Proof.
  intros Hj. unfold make_glyph_names.
  destruct (decide (j = n)) as [->|Hne].
  - apply elem_of_app. right. apply list_elem_of_singleton. reflexivity.
  - apply elem_of_app. left. apply elem_of_app. right.
    apply list_elem_of_fmap. exists j. split; [reflexivity|].
    apply elem_of_seq. lia.
Qed.

(** Outline and metrics of content glyph [k]. *)
Lemma glyf_font_of (k : nat) (img : ndarray) :
  chars !! k = Some img →
  glyf_glyphs (font_of chars) !! glyph_name k = Some (vectorize self0 img).
Proof.
  intros Hk. pose proof (lookup_lt_Some _ _ _ Hk) as Hlt.
  rewrite font_of_unfold. cbn [glyf_glyphs set_cmap set_metric set_glyph].
  rewrite lookup_insert_ne by (intros E; apply glyph_name_inj in E; lia).
  unfold font_after_loop.
  apply (loop_glyf_lookup self0 chars 0 k). exact Hk.
Qed.

Lemma hmtx_font_of (j : nat) :
  (j ≤ n)%nat →
  hmtx_metrics (font_of chars) !! glyph_name j = Some (1024, 0).
Proof.
  intros Hj. rewrite font_of_unfold.
  cbn [hmtx_metrics set_cmap set_metric set_glyph].
  rewrite lookup_insert. case_decide as E; [reflexivity|].
  unfold font_after_loop.
  rewrite (loop_hmtx_lookup self0 chars 0 j); [reflexivity|].
  assert (j ≠ n) by congruence. lia.
Qed.

End Final.

(** ** The pipeline *)

(** [extract_characters] always yields the 96 cells of the 16x6 grid. *)
Lemma length_extract_characters (image_array : ndarray) :
  length (extract_characters image_array) = 96%nat.
Proof. reflexivity. Qed.

(** A later glyph [k] does not assign the code at hand: by the closed form
    of its codes. *)
Ltac no_later_writer :=
  let k := fresh "k" in
  let Hk := fresh "Hk" in
  intros k Hk; apply writes_false;
  pose proof (ascii_value_cases k); lia.

(** The code at hand resolves to glyph [j], its last writer. *)
Ltac last_writer :=
  apply final_last;
  [ lia
  | first [assumption | lia]
  | first [assumption | apply writes_spec; lia]
  | no_later_writer ].

(** ** The vectorizer *)

Section Vectorizer.

Variable self : FontCreator.
Variable char_img : ndarray.

Lemma scan_pixel_closed (y x : nat) (st : scan_state) :
  pen_closed (scan_pen (scan_pixel self char_img y st x)) =
    pen_closed (scan_pen st)
    ++ (if is_ink char_img y x
        then [closed_contour (drawn_square (scale self) (x, y))]
        else []).
Proof.
  unfold scan_pixel, is_ink.
  destruct (getitem char_img y x) as [px|]; [|by rewrite app_nil_r].
  destruct (negb (is_background px)); [reflexivity | by rewrite app_nil_r].
Qed.

Lemma scan_pixel_inv (y x : nat) (st : scan_state) :
  scan_inv st → scan_inv (scan_pixel self char_img y st x).
Proof.
  unfold scan_pixel. intros Hst.
  destruct (getitem char_img y x) as [px|]; [|exact Hst].
  destruct (negb (is_background px)); [|exact Hst].
  unfold scan_inv. simpl. split; [|reflexivity].
  intros _ H. by apply app_eq_nil in H as [_ ?].
Qed.

Lemma scan_row_closed (width y : nat) (st : scan_state) :
  pen_closed (scan_pen (scan_row self char_img width st y)) =
    pen_closed (scan_pen st)
    ++ map (λ x : nat, closed_contour (drawn_square (scale self) (x, y)))
           (List.filter (is_ink char_img y) (seq 0 width)).
Proof.
  unfold scan_row. generalize (seq 0 width) as xs. intros xs. revert st.
  induction xs as [|x xs IH]; intros st; simpl.
  - by rewrite app_nil_r.
  - rewrite IH, scan_pixel_closed.
    destruct (is_ink char_img y x); simpl.
    + by rewrite <- app_assoc.
    + by rewrite app_nil_r.
Qed.

Lemma scan_row_inv (width y : nat) (st : scan_state) :
  scan_inv st → scan_inv (scan_row self char_img width st y).
Proof.
  unfold scan_row. generalize (seq 0 width) as xs. intros xs. revert st.
  induction xs as [|x xs IH]; intros st Hst; simpl.
  - exact Hst.
  - apply IH, scan_pixel_inv, Hst.
Qed.

Lemma scan_rows_closed (width : nat) (ys : list nat) (st : scan_state) :
  pen_closed (scan_pen (foldl (scan_row self char_img width) st ys)) =
    pen_closed (scan_pen st)
    ++ map (λ xy : nat * nat, closed_contour (drawn_square (scale self) xy))
         (flat_map (λ y : nat,
            map (λ x : nat, (x, y))
                (List.filter (is_ink char_img y) (seq 0 width))) ys).
Proof.
  revert st. induction ys as [|y ys IH]; intros st; simpl.
  - by rewrite app_nil_r.
  - rewrite IH, scan_row_closed, map_app, map_map, <- app_assoc.
    reflexivity.
Qed.

Lemma scan_rows_inv (width : nat) (ys : list nat) (st : scan_state) :
  scan_inv st → scan_inv (foldl (scan_row self char_img width) st ys).
Proof.
  revert st. induction ys as [|y ys IH]; intros st Hst; simpl.
  - exact Hst.
  - apply IH, scan_row_inv, Hst.
Qed.

Lemma scan_cell_closed :
  pen_closed (scan_pen (scan_cell self char_img)) =
    map (λ xy : nat * nat, closed_contour (drawn_square (scale self) xy))
        (ink_pixels char_img).
Proof.
  unfold scan_cell, ink_pixels. destruct (shape char_img) as [height width].
  rewrite scan_rows_closed. reflexivity.
Qed.

Lemma scan_cell_inv : scan_inv (scan_cell self char_img).
Proof.
  unfold scan_cell. destruct (shape char_img) as [height width].
  apply scan_rows_inv. unfold scan_inv. simpl. split; [discriminate | done].
Qed.

(** The outline: one stored contour per ink pixel, or the zero-area
    contour. *)
Lemma vectorize_stored :
  vectorize self char_img =
    match ink_pixels char_img with
    | [] => [degenerate_path]
    | _ => map (λ xy : nat * nat, closed_contour (drawn_square (scale self) xy))
               (ink_pixels char_img)
    end.
Proof.
  unfold vectorize. pose proof scan_cell_inv as Hinv.
  pose proof scan_cell_closed as Hcl. unfold scan_inv in Hinv.
  rewrite Hcl in Hinv.
  destruct (has_pixels (scan_cell self char_img)) eqn:Hhas; simpl.
  - unfold pen_glyph. rewrite Hcl.
    destruct (ink_pixels char_img); [|reflexivity].
    exfalso. by apply Hinv.
  - destruct (ink_pixels char_img) as [|p ps]; [reflexivity|].
    exfalso. assert (false = true); [|discriminate].
    apply Hinv. discriminate.
Qed.

(** With a scale other than 0 the last corner of a square differs from the
    first, and the pen keeps all four. *)
Lemma closed_square (s : Z) (xy : nat * nat) :
  s ≠ 0 → closed_contour (drawn_square s xy) = drawn_square s xy.
Proof.
  intros Hs. destruct xy as [x y]. unfold drawn_square, closed_contour.
  cbn [List.last]. unfold point_eqb. cbn [fst snd].
  destruct (Z.eqb_spec ((7 - Z.of_nat y) * s) ((8 - Z.of_nat y) * s)) as [E|E].
  - exfalso. nia.
  - by rewrite andb_false_r.
Qed.

Lemma vectorize_eq :
  scale self ≠ 0 →
  vectorize self char_img =
    match ink_pixels char_img with
    | [] => [degenerate_path]
    | _ => map (drawn_square (scale self)) (ink_pixels char_img)
    end.
Proof.
  intros Hs. rewrite vectorize_stored.
  destruct (ink_pixels char_img) as [|p ps]; [reflexivity|].
  apply map_ext. intros xy. apply closed_square, Hs.
Qed.

Lemma four_point_squares (s : Z) (ps : list (nat * nat)) :
  four_point_paths (map (drawn_square s) ps) = map (drawn_square s) ps.
Proof.
  unfold four_point_paths. induction ps as [|[x y] ps IH]; simpl.
  - reflexivity.
  - by rewrite IH.
Qed.

Lemma four_point_vectorize :
  scale self ≠ 0 →
  four_point_paths (vectorize self char_img) =
    map (drawn_square (scale self)) (ink_pixels char_img).
Proof.
  intros Hs. rewrite (vectorize_eq Hs).
  destruct (ink_pixels char_img) as [|p ps] eqn:E.
  - reflexivity.
  - apply four_point_squares.
Qed.

End Vectorizer.

Lemma scale_init (chars : list ndarray) (width height : Z) :
  scale (FontCreator_init chars width height) = 128.
Proof. reflexivity. Qed.

(** ** Ink pixels *)

Section Ink.

Lemma is_ink_getitem (img : ndarray) (y x : nat) :
  is_ink img y x = true ↔
    ∃ px : pixel, getitem img y x = Some px ∧ is_background px = false.
Proof.
  unfold is_ink. destruct (getitem img y x) as [px|].
  - rewrite negb_true_iff. split; [eauto|]. by intros (? & [= <-] & ?).
  - split; [discriminate|]. by intros (? & ? & ?).
Qed.

Lemma getitem_Some (img : ndarray) (y x : nat) (px : pixel) :
  getitem img y x = Some px ↔
    ∃ row : list pixel, img !! y = Some row ∧ row !! x = Some px.
Proof.
  unfold getitem. destruct (img !! y) as [row|]; simpl.
  - split; [eauto|]. by intros (? & [= <-] & ?).
  - split; [discriminate|]. by intros (? & ? & ?).
Qed.

Lemma ink_pixels_In (img : ndarray) (x y : nat) :
  In (x, y) (ink_pixels img) → is_ink img y x = true.
Proof.
  unfold ink_pixels. destruct (shape img) as [height width].
  rewrite in_flat_map. intros (y' & _ & Hin).
  apply in_map_iff in Hin as (x' & [= -> ->] & Hx).
  by apply filter_In in Hx as [_ ?].
Qed.

Lemma is_cell_hd (h w : nat) (img : ndarray) (y : nat) (row : list pixel) :
  is_cell h w img → img !! y = Some row →
  length row = w ∧ length (hd [] img) = w.
Proof.
  intros [_ Hall] Hy. split.
  - by apply (Forall_lookup_1 _ _ _ _ Hall Hy).
  - destruct img as [|r img]; [discriminate|]. simpl.
    by apply Forall_cons in Hall as [? _].
Qed.

Lemma In_ink_pixels (h w : nat) (img : ndarray) (x y : nat) :
  is_cell h w img → is_ink img y x = true → In (x, y) (ink_pixels img).
Proof.
  intros Hcell Hink. pose proof Hink as Hink'.
  apply is_ink_getitem in Hink as (px & Hpx & _).
  apply getitem_Some in Hpx as (row & Hy & Hx).
  destruct (is_cell_hd _ _ _ _ _ Hcell Hy) as [Hrow Hhd].
  apply lookup_lt_Some in Hx. pose proof (lookup_lt_Some _ _ _ Hy) as Hylt.
  unfold ink_pixels, shape. rewrite in_flat_map. exists y. split.
  - apply in_seq. lia.
  - apply in_map_iff. exists x. split; [reflexivity|].
    apply filter_In. split; [|exact Hink']. apply in_seq. lia.
Qed.

Lemma NoDup_positions (F : nat → list nat) (ys : list nat) :
  List.NoDup ys → (∀ y : nat, List.NoDup (F y)) →
  List.NoDup (flat_map (λ y : nat, map (λ x : nat, (x, y)) (F y)) ys).
Proof.
  intros Hys HF. induction Hys as [|y ys Hy Hys IH]; simpl.
  - constructor.
  - apply NoDup_ListNoDup, NoDup_app. split; [|split].
    + apply NoDup_ListNoDup, Finite.Injective_map_NoDup; [|apply HF].
      intros a b. congruence.
    + intros [x' y'] H1 H2.
      apply list_elem_of_In, in_map_iff in H1 as (a & [= <- <-] & _).
      apply list_elem_of_In, in_flat_map in H2 as (y2 & Hy2 & H2).
      apply in_map_iff in H2 as (b & [= _ ->] & _). contradiction.
    + apply NoDup_ListNoDup, IH.
Qed.

Lemma NoDup_ink_pixels (img : ndarray) : List.NoDup (ink_pixels img).
Proof.
  unfold ink_pixels. destruct (shape img) as [height width].
  apply NoDup_positions; [apply seq_NoDup|].
  intros y. apply List.NoDup_filter, seq_NoDup.
Qed.

(** Counting through positions and counting the samples agree. *)
Lemma filter_seq_lookup {A : Type} (P : A → bool) (row : list A) :
  length (List.filter
            (λ x : nat, match row !! x with Some a => P a | None => false end)
            (seq 0 (length row)))
  = length (List.filter P row).
Proof.
  induction row as [|a row IH] using rev_ind; [reflexivity|].
  rewrite length_app, Nat.add_1_r, seq_S, !List.filter_app, !length_app.
  simpl. rewrite list_lookup_middle by reflexivity.
  rewrite <- IH. f_equal.
  - f_equal. apply List.filter_ext_in. intros x Hx. apply in_seq in Hx.
    rewrite lookup_app_l by lia. reflexivity.
  - by destruct (P a).
Qed.

Lemma length_flat_map_rows {A B : Type} (P : A → bool) (F : nat → list B)
    (l : list (list A)) :
  (∀ (y : nat) (row : list A),
      l !! y = Some row → length (F y) = length (List.filter P row)) →
  length (flat_map F (seq 0 (length l))) = length (List.filter P (concat l)).
Proof.
  induction l as [|row l IH] using rev_ind; intros HF; [reflexivity|].
  rewrite length_app, Nat.add_1_r, seq_S, flat_map_app, concat_app.
  rewrite List.filter_app, !length_app. simpl. rewrite !app_nil_r.
  rewrite IH.
  - f_equal. apply HF. by apply list_lookup_middle.
  - intros y r Hy. apply HF. rewrite lookup_app_l; [exact Hy|].
    by apply lookup_lt_Some in Hy.
Qed.

Lemma length_ink_pixels (h w : nat) (img : ndarray) :
  is_cell h w img → length (ink_pixels img) = ink_count img.
Proof.
  intros Hcell. unfold ink_pixels, ink_count, shape.
  apply length_flat_map_rows. intros y row Hy.
  destruct (is_cell_hd _ _ _ _ _ Hcell Hy) as [Hrow Hhd].
  rewrite length_map, Hhd, <- Hrow.
  rewrite <- (filter_seq_lookup (λ px : pixel, negb (is_background px)) row).
  f_equal. apply List.filter_ext. intros x.
  unfold is_ink, getitem. rewrite Hy. reflexivity.
Qed.

(** An image without ink has no ink position, whatever its shape. *)
Lemma ink_pixels_nil (img : ndarray) :
  ink_count img = 0%nat → ink_pixels img = [].
Proof.
  intros Hzero. destruct (ink_pixels img) as [|[x y] ps] eqn:E; [reflexivity|].
  exfalso.
  assert (In (x, y) (ink_pixels img)) as Hin by (rewrite E; by left).
  apply ink_pixels_In, is_ink_getitem in Hin as (px & Hpx & Hbg).
  apply getitem_Some in Hpx as (row & Hy & Hx).
  assert (In px (List.filter (λ p : pixel, negb (is_background p))
                             (concat img))) as Hpx.
  { apply filter_In. split; [|by rewrite Hbg].
    apply in_concat. exists row. split.
    - apply list_elem_of_In, list_elem_of_lookup. eauto.
    - apply list_elem_of_In, list_elem_of_lookup. eauto. }
  unfold ink_count in Hzero. apply length_zero_iff_nil in Hzero.
  rewrite Hzero in Hpx. contradiction.
Qed.

Lemma drawn_square_128 (xy : nat * nat) : drawn_square 128 xy = square_path xy.
Proof. destruct xy. reflexivity. Qed.

Lemma square_path_inj (p q : nat * nat) : square_path p = square_path q → p = q.
Proof.
  destruct p as [x y], q as [x' y']. unfold square_path.
  intros [= Hx Hy _ _ _ _]. f_equal; lia.
Qed.

End Ink.

(** * The claims *)

(** ** Code-point mapper *)

(** C1 (the code departs from the claim).  The claim: code 0 resolves to
    [.notdef] in the final character map and no content glyph reassigns it.
    The code: [_create_cmap_table] enters [.notdef] at code 0, but the first
    content glyph has primary code 0, so for every non-empty character list
    code 0 resolves to [glyph00001] and no code at all resolves to
    [.notdef]; only for the empty list does the entry survive. *)
Theorem C1_notdef_entry_replaced (img : ndarray) (chars : list ndarray) :
  cmap_cmap (font_of (img :: chars)) !! 0 = Some "glyph00001"
  ∧ (∀ c : Z, cmap_cmap (font_of (img :: chars)) !! c ≠ Some ".notdef")
  ∧ cmap_cmap (font_of []) !! 0 = Some ".notdef".
Proof.
  assert (writes 0 0 = true) as Hw0 by reflexivity.
  assert (∀ k : nat, (0 < k)%nat → writes k 0 = false) as Hlater.
  { intros k Hk. apply writes_false.
    pose proof (ascii_value_cases k). lia. }
  split; [|split].
  - change "glyph00001" with (glyph_name 0).
    apply final_last; [lia | simpl; lia | exact Hw0 |].
    intros k Hk. apply Hlater. lia.
  - intros c Hc. apply final_origin in Hc as [[_ Hg] | [(_ & _ & Hno) | (_ & j & _ & _ & Hg)]].
    + symmetry in Hg. exact (glyph_name_not_notdef _ Hg).
    + specialize (Hno 0%nat). simpl in Hno. rewrite Hw0 in Hno.
      assert (true = false) by (apply Hno; lia). discriminate.
    + symmetry in Hg. exact (glyph_name_not_notdef _ Hg).
  - reflexivity.
Qed.

(** C2, counterexample.  For glyph index 0 the code computes
    [original_pos = 64] and primary code 0: neither 32 nor 62. *)
Lemma C2_index0_counterexample :
  original_pos 0 = 64 ∧ ascii_value 0 = 0
  ∧ ¬ (original_pos 0 = 32 ∧ ascii_value 0 = 62).
Proof.
  split; [reflexivity|]. split; [reflexivity|].
  intros [H _]. vm_compute in H. discriminate.
Qed.

(** C2, amended.  For glyph index 0 the base code is 32 and [original_pos]
    is 64, outside [32, 63], so the remap override does not apply to it.
    The value 62 is what the override rule gives at [original_pos = 32]
    (base 0), a position that no glyph index takes. *)
Theorem C2_index0_amended :
  base_ascii 0 = 32 ∧ original_pos 0 = 64
  ∧ (32 <=? original_pos 0) && (original_pos 0 <=? 63) = false
  ∧ remap 0 32 = 62
  ∧ ∀ i : nat, original_pos i ≠ 32.
Proof.
  repeat split; try reflexivity.
  intros i. rewrite original_pos_eq. lia.
Qed.

(** C3.  For every content glyph index [i], the primary code the code
    assigns is the one of the spec's rules 1 to 4: with
    [base = 33 + i - 1] and [original_pos = base + 32], it is [base] when
    [base] is in [97, 122], otherwise [base - 32], overridden to
    [62 + (original_pos - 32)] when [original_pos] is in [32, 63]; and this
    is the code the mapping step assigns the glyph's name to. *)
Theorem C3_primary_code (i : nat) :
  base_ascii i = 33 + Z.of_nat i - 1
  ∧ original_pos i = base_ascii i + 32
  ∧ ascii_value i = spec_primary_code (Z.of_nat i)
  ∧ ∀ (name : string) (f : TTFont),
      cmap_cmap (map_character i name f) !! ascii_value i = Some name.
Proof.
  split; [reflexivity|]. split; [reflexivity|]. split.
  - unfold ascii_value, remap, original_pos, base_ascii, spec_primary_code.
    change (ord "a") with 97. change (ord "z") with 122.
    repeat case_bool_decide;
      repeat match goal with
             | |- context [Z.leb ?a ?b] => destruct (Z.leb_spec a b)
             end; simpl; lia.
  - intros name f. rewrite cmap_map_character.
    assert (writes i (ascii_value i) = true) as ->; [|reflexivity].
    apply writes_spec. left. reflexivity.
Qed.

(** C10.  For every content glyph index [i], [original_pos = 64 + i], so it
    is at least 64: the guard of the remap override is false for every
    glyph (the primary code is settled by the lowercase test alone), the
    guard [original_pos > 61] is true for every glyph, and the mapping
    step always assigns the extended code and the Private-Use-Area code. *)
Theorem C10_original_pos_from_64 (i : nat) :
  original_pos i = 64 + Z.of_nat i
  ∧ 64 ≤ original_pos i
  ∧ (32 <=? original_pos i) && (original_pos i <=? 63) = false
  ∧ ascii_value i
    = (if is_lower (base_ascii i) then base_ascii i else base_ascii i - 32)
  ∧ (61 <? original_pos i) = true
  ∧ ∀ (name : string) (f : TTFont),
      cmap_cmap (map_character i name f) !! (ascii_value i + 128) = Some name
      ∧ cmap_cmap (map_character i name f) !! (0xE000 + (original_pos i - 32))
        = Some name.
Proof.
  pose proof (original_pos_eq i) as Hop.
  assert ((32 <=? original_pos i) && (original_pos i <=? 63) = false) as Hguard.
  { apply andb_false_iff. right. apply Z.leb_gt. lia. }
  split; [exact Hop|]. split; [lia|]. split; [exact Hguard|]. split; [|split].
  - unfold ascii_value, remap. rewrite Hguard. reflexivity.
  - apply Z.ltb_lt. lia.
  - intros name f. rewrite !cmap_map_character.
    assert (writes i (ascii_value i + 128) = true) as ->
      by (apply writes_spec; lia).
    assert (writes i (0xE000 + (original_pos i - 32)) = true) as ->
      by (apply writes_spec; lia).
    split; reflexivity.
Qed.

(** ** The final character map *)

(** C4, counterexample.  In a run on 96 cells (the size of the grid the
    program extracts) the glyph at index 32 has [original_pos = 96 > 61] and
    primary code 32, but in the final map code 32 resolves to the trailing
    glyph [glyph00097], not to [glyph00033]. *)
Lemma C4_index32_counterexample :
  let chars := repeat blank_cell 96 in
  (32 < length chars)%nat
  ∧ 61 < original_pos 32
  ∧ ascii_value 32 = 32
  ∧ glyph_name 32 = "glyph00033"
  ∧ cmap_cmap (font_of chars) !! ascii_value 32 = Some "glyph00097"
  ∧ cmap_cmap (font_of chars) !! ascii_value 32 ≠ Some (glyph_name 32).
Proof.
  cbv zeta. split; [vm_compute; lia|]. split; [reflexivity|].
  split; [reflexivity|]. split; [reflexivity|].
  assert (cmap_cmap (font_of (repeat blank_cell 96)) !! ascii_value 32
          = Some "glyph00097") as H by (vm_compute; reflexivity).
  split; [exact H|]. rewrite H. vm_compute. discriminate.
Qed.

(** C4, amended.  Every content glyph has [original_pos > 61], and its
    mapping step assigns three pairwise distinct codes: the primary code,
    the extended code (primary + 128) and the Private-Use-Area code
    ([0xE000 + (original_pos - 32)]).  A code resolves to the last glyph
    that was assigned to it.  In a run on at most 97 cells (the program
    extracts 96) the extended and the Private-Use-Area code of every content
    glyph resolve to it in the final map, and so does the primary code of
    every content glyph other than index 32; the primary code of index 32 is
    32, which resolves to the trailing glyph. *)
Theorem C4_three_codes_amended (chars : list ndarray) (i : nat) :
  (i < length chars)%nat →
  (length chars ≤ 97)%nat →
  let primary := ascii_value i in
  let extended := ascii_value i + 128 in
  let private_use := 0xE000 + (original_pos i - 32) in
  let final := cmap_cmap (font_of chars) in
  61 < original_pos i
  ∧ primary ≠ extended ∧ primary ≠ private_use ∧ extended ≠ private_use
  ∧ final !! extended = Some (glyph_name i)
  ∧ final !! private_use = Some (glyph_name i)
  ∧ (i ≠ 32%nat → final !! primary = Some (glyph_name i))
  ∧ (i = 32%nat → final !! primary = Some (glyph_name (length chars))).
Proof.
  intros Hi Hn. cbv zeta.
  pose proof (original_pos_eq i) as Hop.
  pose proof (ascii_value_cases i) as Hav.
  split; [lia|]. split; [lia|]. split; [lia|]. split; [lia|].
  split; [|split; [|split]].
  - last_writer.
  - last_writer.
  - intros Hne.
    last_writer.
  - intros ->. replace (ascii_value 32) with 32 by reflexivity.
    apply final_space.
Qed.

(** C4, witness: glyph index 70 in a run on 96 blank cells. *)
Lemma C4_three_codes_amended_witness :
  let chars := repeat blank_cell 96 in
  cmap_cmap (font_of chars) !! (ascii_value 70 + 128) = Some (glyph_name 70)
  ∧ cmap_cmap (font_of chars) !! (0xE000 + (original_pos 70 - 32))
    = Some (glyph_name 70)
  ∧ cmap_cmap (font_of chars) !! ascii_value 70 = Some (glyph_name 70).
Proof.
  cbv zeta.
  assert (70 < length (repeat blank_cell 96))%nat as Hi by (vm_compute; lia).
  assert (length (repeat blank_cell 96) ≤ 97)%nat as Hn by (vm_compute; lia).
  destruct (C4_three_codes_amended (repeat blank_cell 96) 70 Hi Hn)
    as (_ & _ & _ & _ & He & Hp & Hprim & _).
  split; [exact He|]. split; [exact Hp|]. apply Hprim. lia.
Defined.

(** C5.  For every list of character images, the trailing glyph (named
    after the content glyphs, last in the glyph order) is what code 32
    resolves to in the final character map, and no other code resolves to
    it. *)
Theorem C5_trailing_glyph_space_only (chars : list ndarray) :
  last (glyphOrder (font_of chars)) = Some (glyph_name (length chars))
  ∧ cmap_cmap (font_of chars) !! 32 = Some (glyph_name (length chars))
  ∧ ∀ c : Z, cmap_cmap (font_of chars) !! c = Some (glyph_name (length chars))
             → c = 32.
Proof.
  split; [|split].
  - rewrite order_font_of. unfold make_glyph_names. apply last_snoc.
  - apply final_space.
  - intros c Hc.
    apply final_origin in Hc as [[Hc _] | [(_ & Hg & _) | (_ & j & Hj & _ & Hg)]].
    + exact Hc.
    + exfalso. exact (glyph_name_not_notdef _ Hg).
    + apply glyph_name_inj in Hg. lia.
Qed.

(** C6.  For every content glyph whose primary code is in [97, 122], its
    mapping step assigns both that code and the uppercase code
    (primary - 32) to the glyph, and in the final character map the two
    codes resolve to one and the same glyph name; in a run on at most 97
    cells (the program extracts 96) that name is the glyph's own. *)
Theorem C6_case_pair (chars : list ndarray) (i : nat) :
  (i < length chars)%nat →
  97 ≤ ascii_value i ≤ 122 →
  let lower := ascii_value i in
  let upper := ascii_value i - 32 in
  let final := cmap_cmap (font_of chars) in
  (∀ (name : string) (f : TTFont),
      cmap_cmap (map_character i name f) !! lower = Some name
      ∧ cmap_cmap (map_character i name f) !! upper = Some name)
  ∧ (∃ g : string, final !! lower = Some g ∧ final !! upper = Some g)
  ∧ ((length chars ≤ 97)%nat →
     final !! lower = Some (glyph_name i) ∧ final !! upper = Some (glyph_name i)).
Proof.
  intros Hi Hlow. cbv zeta.
  pose proof (ascii_value_cases i) as Hav.
  assert (writes i (ascii_value i) = true) as Hwl by (apply writes_spec; lia).
  assert (writes i (ascii_value i - 32) = true) as Hwu by (apply writes_spec; lia).
  split; [|split].
  - intros name f. rewrite !cmap_map_character, Hwl, Hwu. split; reflexivity.
  - (* the writers of both codes are the indices [lower - 32] and [lower] *)
    destruct (decide (Z.of_nat (length chars) ≤ ascii_value i)) as [Hshort|Hlong].
    + exists (glyph_name i). split.
      * last_writer.
      * last_writer.
    + set (j := Z.to_nat (ascii_value i)).
      assert (Z.of_nat j = ascii_value i) as Hj by (unfold j; lia).
      pose proof (ascii_value_cases j) as Havj.
      exists (glyph_name j). split.
      * last_writer.
      * last_writer.
  - intros Hn. split.
    + last_writer.
    + last_writer.
Qed.

(** C6, witness: glyph index 65 (primary code 97) in a run on 96 blank
    cells. *)
Lemma C6_case_pair_witness :
  let chars := repeat blank_cell 96 in
  ascii_value 65 = 97
  ∧ cmap_cmap (font_of chars) !! 97 = Some (glyph_name 65)
  ∧ cmap_cmap (font_of chars) !! 65 = Some (glyph_name 65).
Proof.
  cbv zeta.
  assert (65 < length (repeat blank_cell 96))%nat as Hi by (vm_compute; lia).
  assert (97 ≤ ascii_value 65 ≤ 122) as Hlow by (vm_compute; split; discriminate).
  assert (length (repeat blank_cell 96) ≤ 97)%nat as Hn by (vm_compute; lia).
  destruct (C6_case_pair (repeat blank_cell 96) 65 Hi Hlow) as (_ & _ & Hfin).
  split; [reflexivity|]. exact (Hfin Hn).
Defined.

(** ** Vectorizer and assembly *)

Lemma is_background_spec (px : pixel) :
  is_background px = false ↔ (chan0 px, chan1 px, chan2 px) ≠ (0x9F, 0x5B, 0x53).
Proof.
  unfold is_background. rewrite !andb_false_iff, !Z.eqb_neq.
  split.
  - intros H [= ? ? ?]. tauto.
  - intros H.
    destruct (decide (chan0 px = 159)) as [E0|]; [|tauto].
    destruct (decide (chan1 px = 91)) as [E1|]; [|tauto].
    destruct (decide (chan2 px = 83)) as [E2|]; [|tauto].
    exfalso. apply H. congruence.
Qed.

(** C7.  For every 8x8 cell the four-point paths of the outline are exactly
    the squares of the ink pixels, one per ink pixel, in scan order and
    unmerged: the square of the pixel at column [x] of row [y] (rows counted
    from the top) runs from [(x*128, (7-y)*128)] to [((x+1)*128, (8-y)*128)];
    a position is an ink pixel exactly when its RGB triple differs from
    [(0x9F, 0x5B, 0x53)]; the squares are pairwise distinct and their number
    is the number of ink pixels; and when there is ink the outline holds
    nothing else. *)
Theorem C7_one_square_per_ink_pixel (chars : list ndarray) (width height : Z)
    (char_img : ndarray) :
  is_cell 8 8 char_img →
  let outline := vectorize (FontCreator_init chars width height) char_img in
  four_point_paths outline = map square_path (ink_pixels char_img)
  ∧ (∀ x y : nat,
       In (x, y) (ink_pixels char_img) ↔
       ∃ px : pixel, getitem char_img y x = Some px
                     ∧ (chan0 px, chan1 px, chan2 px) ≠ (0x9F, 0x5B, 0x53))
  ∧ List.NoDup (ink_pixels char_img)
  ∧ List.NoDup (four_point_paths outline)
  ∧ length (four_point_paths outline) = ink_count char_img
  ∧ (ink_count char_img ≠ 0%nat → outline = four_point_paths outline).
Proof.
  intros Hcell. cbv zeta.
  set (self := FontCreator_init chars width height).
  assert (scale self ≠ 0) as Hs by (subst self; rewrite scale_init; lia).
  assert (four_point_paths (vectorize self char_img)
          = map square_path (ink_pixels char_img)) as Hsq.
  { rewrite (four_point_vectorize _ _ Hs). apply map_ext. intros xy.
    apply drawn_square_128. }
  split; [exact Hsq|]. split; [|split; [|split; [|split]]].
  - intros x y. split.
    + intros Hin. apply ink_pixels_In, is_ink_getitem in Hin as (px & Hpx & Hbg).
      exists px. split; [exact Hpx|]. by apply is_background_spec.
    + intros (px & Hpx & Hbg). apply (In_ink_pixels 8 8); [exact Hcell|].
      apply is_ink_getitem. exists px. split; [exact Hpx|].
      by apply is_background_spec.
  - apply NoDup_ink_pixels.
  - rewrite Hsq. apply Finite.Injective_map_NoDup; [|apply NoDup_ink_pixels].
    intros p q. apply square_path_inj.
  - rewrite Hsq, length_map. apply (length_ink_pixels 8 8), Hcell.
  - intros Hink. rewrite Hsq, (vectorize_eq _ _ Hs).
    rewrite <- (length_ink_pixels 8 8 _ Hcell) in Hink.
    destruct (ink_pixels char_img) as [|p ps]; [done|].
    apply map_ext. intros xy. apply drawn_square_128.
Qed.

(** C7, witness: the cell with one ink pixel at column 3 of row 2. *)
Lemma C7_one_square_per_ink_pixel_witness :
  is_cell 8 8 dot_cell
  ∧ four_point_paths (vectorize (FontCreator_init [dot_cell] 8 8) dot_cell)
    = [[(384, 640); (512, 640); (512, 768); (384, 768)]]
  ∧ ink_count dot_cell = 1%nat.
Proof.
  assert (is_cell 8 8 dot_cell) as Hcell.
  { split; [reflexivity|]. vm_compute. repeat constructor. }
  split; [exact Hcell|].
  destruct (C7_one_square_per_ink_pixel [dot_cell] 8 8 dot_cell Hcell)
    as (Hsq & _ & _ & _ & Hlen & _).
  split.
  - rewrite Hsq. reflexivity.
  - rewrite <- Hlen, Hsq. reflexivity.
Defined.

(** C8.  For every cell of the character list without ink pixels, the
    outline is the single zero-area contour (the one point [(0, 0)] that
    the pen keeps of the path from [(0, 0)] to [(0, 0)]), not an empty
    outline; the glyph gets that outline under
    its name in the outline table and the metrics entry [(1024, 0)], and its
    name is in the glyph order, as for every glyph of the run. *)
Theorem C8_empty_cell_outline (chars : list ndarray) (k : nat)
    (char_img : ndarray) :
  chars !! k = Some char_img →
  ink_count char_img = 0%nat →
  let f := font_of chars in
  vectorize (FontCreator_init chars 8 8) char_img = [degenerate_path]
  ∧ glyf_glyphs f !! glyph_name k = Some [degenerate_path]
  ∧ hmtx_metrics f !! glyph_name k = Some (1024, 0)
  ∧ glyph_name k ∈ glyphOrder f
  ∧ ∀ j : nat, (j ≤ length chars)%nat →
      is_Some (glyf_glyphs f !! glyph_name j)
      ∧ hmtx_metrics f !! glyph_name j = Some (1024, 0)
      ∧ glyph_name j ∈ glyphOrder f.
Proof.
  intros Hk Hzero. cbv zeta.
  pose proof (lookup_lt_Some _ _ _ Hk) as Hlt.
  assert (vectorize (FontCreator_init chars 8 8) char_img = [degenerate_path])
    as Hvec.
  { rewrite vectorize_stored, (ink_pixels_nil _ Hzero). reflexivity. }
  split; [exact Hvec|]. split; [|split; [|split]].
  - pose proof (glyf_font_of chars k char_img Hk) as Hg.
    rewrite Hvec in Hg. exact Hg.
  - apply hmtx_font_of. lia.
  - rewrite order_font_of. apply glyph_name_in_order. lia.
  - intros j Hj. split; [|split].
    + destruct (decide (j = length chars)) as [->|Hne].
      * rewrite font_of_unfold. cbn [glyf_glyphs set_cmap set_metric set_glyph].
        rewrite lookup_insert_eq. eauto.
      * destruct (lookup_lt_is_Some_2 chars j ltac:(lia)) as [c Hc].
        rewrite (glyf_font_of chars j c Hc). eauto.
    + apply hmtx_font_of, Hj.
    + rewrite order_font_of. apply glyph_name_in_order, Hj.
Qed.

(** C8, witness: the blank second cell of a two-cell run. *)
Lemma C8_empty_cell_outline_witness :
  let f := font_of [dot_cell; blank_cell] in
  glyf_glyphs f !! "glyph00002" = Some [[(0, 0)]]
  ∧ hmtx_metrics f !! "glyph00002" = Some (1024, 0).
Proof.
  cbv zeta.
  assert ([dot_cell; blank_cell] !! 1%nat = Some blank_cell) as Hk
    by reflexivity.
  assert (ink_count blank_cell = 0%nat) as Hzero by reflexivity.
  destruct (C8_empty_cell_outline [dot_cell; blank_cell] 1 blank_cell Hk Hzero)
    as (_ & Hg & Hm & _).
  split; [exact Hg | exact Hm].
Defined.

(** The glyph order has no duplicate, and the metrics table has one entry
    per name of it. *)
Lemma NoDup_make_glyph_names (chars : list ndarray) :
  NoDup (make_glyph_names chars).
Proof.
  assert (make_glyph_names chars
          = ".notdef" :: (glyph_name <$> seq 0 (S (length chars)))) as ->.
  { unfold make_glyph_names. rewrite seq_S, fmap_app. reflexivity. }
  apply NoDup_cons. split.
  - intros Hin. apply list_elem_of_fmap in Hin as (j & Hj & _).
    symmetry in Hj. exact (glyph_name_not_notdef _ Hj).
  - apply NoDup_fmap_2; [|apply NoDup_seq].
    intros a b. apply glyph_name_inj.
Qed.

Lemma hmtx_dom_font_of (chars : list ndarray) :
  dom (hmtx_metrics (font_of chars)) = list_to_set (make_glyph_names chars).
Proof.
  rewrite font_of_unfold. cbn [hmtx_metrics set_cmap set_metric set_glyph].
  rewrite dom_insert_L. unfold font_after_loop. rewrite loop_hmtx_dom.
  cbn [hmtx_metrics font_before_loop]. rewrite dom_insert_L, dom_empty_L.
  unfold make_glyph_names. rewrite !list_to_set_app_L. simpl.
  rewrite !(right_id_L ∅ (∪)).
  rewrite (comm_L (∪) {[glyph_name (length chars)]}).
  reflexivity.
Qed.



(** * Further properties of the code *)

(** ** Names, glyph order and table sizes *)

Lemma length_zeros_append (k : nat) (s : string) :
  String.length (zeros k +:+ s) = (k + String.length s)%nat.
Proof. induction k as [|k IH]; simpl; [reflexivity | by rewrite IH]. Qed.

(** Glyph names: [glyph_name i = glyph_name j] only for [i = j], also past
    index 99998 where the number outgrows five digits; no glyph name is
    [.notdef]; the name is ["glyph"] followed by at least five digits that
    read back as [i + 1]. *)
Theorem X1_glyph_names_distinct (i j : nat) :
  (glyph_name i = glyph_name j ↔ i = j)
  ∧ glyph_name i ≠ ".notdef"
  ∧ ∃ digits : string,
      glyph_name i = "glyph" +:+ digits
      ∧ nat_of_str digits = Some (i + 1)%nat
      ∧ (5 ≤ String.length digits)%nat.
Proof.
  split; [|split].
  - split; [apply glyph_name_inj | by intros ->].
  - apply glyph_name_not_notdef.
  - exists (format_05d (i + 1)). split; [reflexivity|].
    split; [apply nat_of_str_format|].
    unfold format_05d. rewrite length_zeros_append. lia.
Qed.

Lemma elem_of_make_glyph_names (chars : list ndarray) (name : string) :
  name ∈ make_glyph_names chars ↔
    name = ".notdef" ∨ ∃ j : nat, (j ≤ length chars)%nat ∧ name = glyph_name j.
Proof.
  unfold make_glyph_names. rewrite !elem_of_app, !list_elem_of_singleton.
  rewrite list_elem_of_In, in_map_iff. split.
  - intros [[->|(j & <- & Hj)]| ->].
    + by left.
    + right. exists j. apply in_seq in Hj. split; [lia | reflexivity].
    + right. exists (length chars). split; [lia | reflexivity].
  - intros [->|(j & Hj & ->)].
    + left. by left.
    + destruct (decide (j = length chars)) as [->|Hne]; [by right|].
      left. right. exists j. split; [reflexivity|]. apply in_seq. lia.
Qed.

Lemma length_make_glyph_names (chars : list ndarray) :
  length (make_glyph_names chars) = (length chars + 2)%nat.
Proof.
  unfold make_glyph_names.
  rewrite !length_app, length_map, length_seq. simpl. lia.
Qed.

(** The glyph order of a run: [.notdef] first, then one name per character
    image and the name of the trailing glyph, [len + 2] names without a
    duplicate; the object keeps the same list in [glyph_names]. *)
Theorem X2_glyph_order (chars : list ndarray) :
  let order := glyphOrder (font_of chars) in
  head order = Some ".notdef"
  ∧ last order = Some (glyph_name (length chars))
  ∧ length order = (length chars + 2)%nat
  ∧ NoDup order
  ∧ (∀ name : string,
       name ∈ order ↔
       name = ".notdef"
       ∨ ∃ j : nat, (j ≤ length chars)%nat ∧ name = glyph_name j)
  ∧ glyph_names (fst (create_font (FontCreator_init chars 8 8))) = Some order.
Proof.
  cbv zeta. rewrite order_font_of.
  split; [reflexivity|]. split; [apply last_snoc|].
  split; [apply length_make_glyph_names|].
  split; [apply NoDup_make_glyph_names|].
  split; [apply elem_of_make_glyph_names | reflexivity].
Qed.

Section Counts.

Variable self : FontCreator.

Local Abbreviation loop := (for_enumerate (process_character self)).

Lemma loop_glyf_dom (cs : list ndarray) (i : nat) (f : TTFont) :
  dom (glyf_glyphs (loop i cs f))
    = dom (glyf_glyphs f) ∪ list_to_set (map glyph_name (seq i (length cs))).
Proof.
  revert i f. induction cs as [|x cs IH]; intros i f; simpl.
  - symmetry. apply (right_id_L ∅ (∪)).
  - rewrite IH, glyf_process_character, dom_insert_L.
    rewrite (assoc_L (∪)), (comm_L (∪) (dom (glyf_glyphs f))).
    reflexivity.
Qed.

Lemma loop_counts (cs : list ndarray) (i : nat) (f : TTFont) :
  maxp_numGlyphs (loop i cs f) = maxp_numGlyphs f
  ∧ hhea_numberOfHMetrics (loop i cs f) = hhea_numberOfHMetrics f.
Proof.
  revert i f. induction cs as [|x cs IH]; intros i f; simpl.
  - split; reflexivity.
  - destruct (IH (S i) (process_character self i x f)) as [-> ->].
    unfold process_character, map_character.
    destruct (is_lower (ascii_value i)), (61 <? original_pos i);
      split; reflexivity.
Qed.

(** An outline of the loop's result was there before or is the
    vectorization of one of the images. *)
Lemma loop_glyf_origin (cs : list ndarray) (i : nat) (f : TTFont)
    (name : string) (g : glyph_outline) :
  glyf_glyphs (loop i cs f) !! name = Some g →
  glyf_glyphs f !! name = Some g
  ∨ ∃ (k : nat) (img : ndarray), cs !! k = Some img ∧ g = vectorize self img.
Proof.
  revert i f. induction cs as [|x cs IH]; intros i f H; simpl in *.
  - by left.
  - apply IH in H as [H | (k & img & Hk & ->)].
    + rewrite glyf_process_character, lookup_insert in H.
      case_decide.
      * right. exists 0%nat, x. split; [reflexivity | congruence].
      * by left.
    + right. exists (S k), img. split; [exact Hk | reflexivity].
Qed.

End Counts.

Lemma glyf_dom_font_of (chars : list ndarray) :
  dom (glyf_glyphs (font_of chars)) = list_to_set (make_glyph_names chars).
Proof.
  rewrite font_of_unfold. cbn [glyf_glyphs set_cmap set_metric set_glyph].
  rewrite dom_insert_L. unfold font_after_loop. rewrite loop_glyf_dom.
  cbn [glyf_glyphs font_before_loop]. rewrite dom_insert_L, dom_empty_L.
  unfold make_glyph_names. rewrite !list_to_set_app_L. simpl.
  rewrite !(right_id_L ∅ (∪)).
  rewrite (comm_L (∪) {[glyph_name (length chars)]}).
  reflexivity.
Qed.

(** Every count of glyphs in the assembled font is [len + 2]: the glyph
    order, [maxp.numGlyphs], [hhea.numberOfHMetrics], the entries of the
    metrics table and the entries of the outline table; the two tables have
    exactly the names of the glyph order as keys. *)
Theorem X3_glyph_counts_agree (chars : list ndarray) :
  let f := font_of chars in
  let count := (length chars + 2)%nat in
  length (glyphOrder f) = count
  ∧ maxp_numGlyphs f = count
  ∧ hhea_numberOfHMetrics f = count
  ∧ size (hmtx_metrics f) = count
  ∧ size (glyf_glyphs f) = count
  ∧ dom (hmtx_metrics f) = list_to_set (glyphOrder f)
  ∧ dom (glyf_glyphs f) = list_to_set (glyphOrder f).
Proof.
  cbv zeta. rewrite order_font_of.
  pose proof (length_make_glyph_names chars) as Hlen.
  pose proof (NoDup_make_glyph_names chars) as Hnd.
  destruct (loop_counts (FontCreator_init chars 8 8) chars 0
              (font_before_loop chars)) as [Hmaxp Hhhea].
  split; [exact Hlen|]. split; [|split; [|split; [|split; [|split]]]].
  - rewrite font_of_unfold. cbn [maxp_numGlyphs set_cmap set_metric set_glyph].
    unfold font_after_loop. rewrite Hmaxp. exact Hlen.
  - rewrite font_of_unfold.
    cbn [hhea_numberOfHMetrics set_cmap set_metric set_glyph].
    unfold font_after_loop. rewrite Hhhea. exact Hlen.
  - rewrite <- size_dom, hmtx_dom_font_of, size_list_to_set by exact Hnd.
    exact Hlen.
  - rewrite <- size_dom, glyf_dom_font_of, size_list_to_set by exact Hnd.
    exact Hlen.
  - apply hmtx_dom_font_of.
  - apply glyf_dom_font_of.
Qed.

Lemma hmtx_notdef_font_of (chars : list ndarray) :
  hmtx_metrics (font_of chars) !! ".notdef" = Some (1024, 0).
Proof.
  rewrite font_of_unfold. cbn [hmtx_metrics set_cmap set_metric set_glyph].
  rewrite lookup_insert_ne by apply glyph_name_not_notdef.
  unfold font_after_loop. rewrite loop_hmtx_other.
  - reflexivity.
  - intros j _ E. symmetry in E. exact (glyph_name_not_notdef _ E).
Qed.

(** All glyphs share one advance width and one left side bearing: every
    entry of the metrics table is [(1024, 0)], which is
    [(hhea.advanceWidthMax, hhea.minLeftSideBearing)], and its key is a name
    of the glyph order. *)
Theorem X4_uniform_metrics (chars : list ndarray) (name : string) (m : Z * Z) :
  hmtx_metrics (font_of chars) !! name = Some m →
  let hhea := hhea_metrics_of (FontCreator_init chars 8 8) in
  m = (1024, 0)
  ∧ m = (hhea_advanceWidthMax hhea, hhea_minLeftSideBearing hhea)
  ∧ hhea_xMaxExtent hhea = fst m
  ∧ name ∈ glyphOrder (font_of chars).
Proof.
  intros Hm. cbv zeta.
  assert (name ∈ make_glyph_names chars) as Hin.
  { apply (elem_of_list_to_set (C := gset string)).
    rewrite <- hmtx_dom_font_of. apply elem_of_dom. eauto. }
  assert (m = (1024, 0)) as ->.
  { apply elem_of_make_glyph_names in Hin as [->|(j & Hj & ->)].
    - rewrite hmtx_notdef_font_of in Hm. congruence.
    - rewrite (hmtx_font_of chars j Hj) in Hm. congruence. }
  split; [reflexivity|]. split; [reflexivity|]. split; [reflexivity|].
  rewrite order_font_of. exact Hin.
Qed.

(** X4, witness: the second glyph of a two-cell run. *)
Lemma X4_uniform_metrics_witness :
  hmtx_metrics (font_of [dot_cell; blank_cell]) !! "glyph00002"
    = Some (1024, 0)
  ∧ "glyph00002" ∈ glyphOrder (font_of [dot_cell; blank_cell]).
Proof.
  assert (hmtx_metrics (font_of [dot_cell; blank_cell]) !! "glyph00002"
          = Some (1024, 0)) as Hm by reflexivity.
  split; [exact Hm|].
  destruct (X4_uniform_metrics [dot_cell; blank_cell] "glyph00002" (1024, 0) Hm)
    as (_ & _ & _ & Hin).
  exact Hin.
Defined.

(** ** The character map as a whole *)

Lemma last_assigner_None (len i : nat) (c : Z) :
  last_assigner i len c = None ↔
    ∀ k : nat, (i ≤ k < i + len)%nat → writes k c = false.
Proof.
  revert i. induction len as [|len IH]; intros i; simpl.
  - split; [intros _ k Hk; lia | reflexivity].
  - destruct (last_assigner (S i) len c) as [j|] eqn:E.
    + split; [discriminate|]. intros Hno.
      assert (last_assigner (S i) len c = None) as E'
        by (apply IH; intros k Hk; apply Hno; lia).
      congruence.
    + pose proof (proj1 (IH (S i)) E) as Hrest.
      destruct (writes i c) eqn:Hw.
      * split; [discriminate|]. intros Hno.
        rewrite Hno in Hw by lia. discriminate.
      * split; [|reflexivity]. intros _ k Hk.
        destruct (decide (k = i)) as [->|Hne]; [exact Hw|].
        apply Hrest. lia.
Qed.

Lemma last_assigner_Some (len i j : nat) (c : Z) :
  last_assigner i len c = Some j ↔
    (i ≤ j < i + len)%nat ∧ writes j c = true
    ∧ ∀ k : nat, (j < k < i + len)%nat → writes k c = false.
Proof.
  revert i j. induction len as [|len IH]; intros i j; simpl.
  - split; [discriminate | lia].
  - destruct (last_assigner (S i) len c) as [j'|] eqn:E.
    + apply IH in E as (Hj' & Hw' & Hlast'). split.
      * intros [= <-]. split; [lia|]. split; [exact Hw'|].
        intros k Hk. apply Hlast'. lia.
      * intros (Hj & Hw & Hlast). f_equal.
        destruct (Nat.lt_trichotomy j j') as [Hlt|[->|Hgt]]; [|reflexivity|].
        -- rewrite Hlast in Hw' by lia. discriminate.
        -- rewrite Hlast' in Hw by lia. discriminate.
    + pose proof (proj1 (last_assigner_None len (S i) c) E) as Hrest.
      destruct (writes i c) eqn:Hw.
      * split.
        -- intros [= <-]. split; [lia|]. split; [exact Hw|].
           intros k Hk. apply Hrest. lia.
        -- intros (Hj & Hwj & _). f_equal.
           destruct (decide (j = i)) as [->|Hne]; [reflexivity|].
           rewrite Hrest in Hwj by lia. discriminate.
      * split; [discriminate|]. intros (Hj & Hwj & _).
        destruct (decide (j = i)) as [->|Hne]; [congruence|].
        rewrite Hrest in Hwj by lia. discriminate.
Qed.

Lemma cmap_resolve (chars : list ndarray) (c : Z) :
  cmap_cmap (font_of chars) !! c = resolve (length chars) c.
Proof.
  unfold resolve. destruct (Z.eqb_spec c 32) as [->|Hc].
  - apply final_space.
  - destruct (last_assigner 0 (length chars) c) as [j|] eqn:E.
    + apply last_assigner_Some in E as (Hj & Hw & Hlast).
      apply final_last; [exact Hc | lia | exact Hw |].
      intros k Hk. apply Hlast. lia.
    + rewrite final_untouched; [|exact Hc|].
      * rewrite lookup_insert. destruct (Z.eqb_spec c 0) as [->|H0].
        -- by rewrite decide_True.
        -- rewrite decide_False by congruence. apply lookup_empty.
      * intros j Hj. apply (proj1 (last_assigner_None _ _ _) E). lia.
Qed.

(** The final character map, code by code and for every run: code 32
    resolves to the trailing glyph; any other code resolves to the last
    content glyph whose mapping step assigned it (later assignments replace
    earlier ones, nothing is ever removed); a code no glyph assigned is
    unmapped, except code 0, which keeps the initial [.notdef] entry. *)
Theorem X5_character_map_last_writer (chars : list ndarray) (c : Z) :
  cmap_cmap (font_of chars) !! c = resolve (length chars) c
  ∧ (∀ j : nat,
       last_assigner 0 (length chars) c = Some j ↔
       (j < length chars)%nat ∧ writes j c = true
       ∧ ∀ k : nat, (j < k < length chars)%nat → writes k c = false)
  ∧ (last_assigner 0 (length chars) c = None ↔
     ∀ k : nat, (k < length chars)%nat → writes k c = false)
  ∧ (∀ j : nat,
       writes j c = true ↔
       c = ascii_value j
       ∨ (97 ≤ ascii_value j ≤ 122 ∧ c = ascii_value j - 32)
       ∨ c = ascii_value j + 128
       ∨ c = 0xE000 + (original_pos j - 32)).
Proof.
  split; [apply cmap_resolve|]. split; [|split].
  - intros j. rewrite last_assigner_Some. simpl.
    split; intros (? & ? & ?); (split; [lia|]); (split; [assumption|]);
      assumption.
  - rewrite last_assigner_None. simpl.
    split; intros H k Hk; apply H; lia.
  - intros j. rewrite writes_spec, original_pos_eq.
    replace (57344 + (64 + Z.of_nat j - 32)) with (57376 + Z.of_nat j) by lia.
    reflexivity.
Qed.

(** In a run on the 96 cells of the grid, whatever they show, the character
    map is this table: codes 0 to 95 resolve to the glyph of the same index
    (32 to the trailing glyph), the lowercase codes 97 to 122 to the glyphs
    65 to 90 (which the uppercase codes 65 to 90 share), the extended codes
    128 to 192, 219 to 223 and 225 to 250 and the Private-Use-Area codes
    0xE020 to 0xE07F to the content glyphs, and no other code is mapped. *)
Theorem X6_character_map_of_the_grid (chars : list ndarray) (c : Z) :
  length chars = 96%nat →
  cmap_cmap (font_of chars) !! c
    = (λ k : Z, glyph_name (Z.to_nat k)) <$> grid_index c.
Proof.
  intros Hlen. unfold grid_index.
  destruct (Z.eqb_spec c 32) as [->|Hc].
  { rewrite final_space, Hlen. reflexivity. }
  repeat match goal with
         | |- context [Z.leb ?a ?b] => destruct (Z.leb_spec a b)
         end;
    cbn [andb fmap option_fmap option_map];
    try (match goal with
         | |- _ = Some (glyph_name ?j) => pose proof (ascii_value_cases j)
         end;
         last_writer).
  all: rewrite final_untouched;
    [ rewrite lookup_insert_ne by lia; apply lookup_empty
    | exact Hc
    | intros j Hj; apply writes_false;
      pose proof (ascii_value_cases j); lia ].
Qed.

(** X6, witness: code 225 in a run on 96 blank cells is the extended code
    of glyph index 65. *)
Lemma X6_character_map_of_the_grid_witness :
  cmap_cmap (font_of (repeat blank_cell 96)) !! 225 = Some "glyph00066".
Proof.
  assert (length (repeat blank_cell 96) = 96%nat) as Hlen by reflexivity.
  rewrite (X6_character_map_of_the_grid (repeat blank_cell 96) 225 Hlen).
  reflexivity.
Defined.

(** Every content glyph of a run on at most 55296 character images (the
    runs whose log lines a UTF-8 console can print) is reachable through
    its Private-Use-Area code [0xE000 + (original_pos - 32)]: no later
    glyph and not the trailing glyph takes that code. *)
Theorem X7_private_use_code_survives (chars : list ndarray) (i : nat) :
  Z.of_nat (length chars) ≤ 55296 →
  (i < length chars)%nat →
  cmap_cmap (font_of chars) !! (0xE000 + (original_pos i - 32))
    = Some (glyph_name i).
Proof.
  intros Hn Hi. pose proof (original_pos_eq i) as Hop.
  pose proof (ascii_value_cases i). last_writer.
Qed.

(** X7, witness: glyph index 95, the last of a run on 96 blank cells. *)
Lemma X7_private_use_code_survives_witness :
  cmap_cmap (font_of (repeat blank_cell 96)) !! 57471 = Some "glyph00096".
Proof.
  assert (Z.of_nat (length (repeat blank_cell 96)) ≤ 55296) as Hn
    by (vm_compute; discriminate).
  assert (95 < length (repeat blank_cell 96))%nat as Hi by (vm_compute; lia).
  exact (X7_private_use_code_survives (repeat blank_cell 96) 95 Hn Hi).
Defined.

(** Mapped codes are never negative and stay below [0xE020 + len]; in a run
    on at most 8160 character images every mapped code fits the 16 bits of
    the format 4 subtable. *)
Theorem X8_mapped_codes_in_range (chars : list ndarray) (c : Z) (g : string) :
  cmap_cmap (font_of chars) !! c = Some g →
  0 ≤ c < 0xE020 + Z.of_nat (length chars)
  ∧ (Z.of_nat (length chars) ≤ 8160 → c ≤ 0xFFFF).
Proof.
  intros Hc.
  assert (0 ≤ c < 57376 + Z.of_nat (length chars)) as Hrange.
  { apply final_origin in Hc as [[-> _] | [(-> & _) | (_ & j & Hj & Hw & _)]].
    - lia.
    - lia.
    - apply writes_spec in Hw. pose proof (ascii_value_cases j). lia. }
  split; [exact Hrange | lia].
Qed.

(** X8, witness: the extended code of the only glyph of a one-cell run. *)
Lemma X8_mapped_codes_in_range_witness :
  cmap_cmap (font_of [blank_cell]) !! 128 = Some "glyph00001"
  ∧ 0 ≤ 128 < 0xE020 + 1.
Proof.
  assert (cmap_cmap (font_of [blank_cell]) !! 128 = Some "glyph00001") as Hc
    by reflexivity.
  split; [exact Hc|].
  exact (proj1 (X8_mapped_codes_in_range [blank_cell] 128 "glyph00001" Hc)).
Defined.

Lemma last_assigner_ext (len i : nat) (c c' : Z) :
  (∀ j : nat, writes j c = writes j c') →
  last_assigner i len c = last_assigner i len c'.
Proof.
  intros Hext. revert i. induction len as [|len IH]; intros i; simpl.
  - reflexivity.
  - rewrite IH, Hext. reflexivity.
Qed.

(** The font does not tell upper case from lower case: in every run, each
    uppercase code 65 to 90 resolves exactly as its lowercase code does,
    to the same glyph or, in a run too short to have the letter, to
    nothing. *)
Theorem X15_case_insensitive (chars : list ndarray) (c : Z) :
  65 ≤ c ≤ 90 →
  cmap_cmap (font_of chars) !! c = cmap_cmap (font_of chars) !! (c + 32).
Proof.
  intros Hc. rewrite !cmap_resolve. unfold resolve.
  destruct (Z.eqb_spec c 32); [lia|]. destruct (Z.eqb_spec (c + 32) 32); [lia|].
  destruct (Z.eqb_spec c 0); [lia|]. destruct (Z.eqb_spec (c + 32) 0); [lia|].
  rewrite (last_assigner_ext _ _ c (c + 32)); [reflexivity|].
  intros j. pose proof (ascii_value_cases j) as Hav.
  destruct (writes j (c + 32)) eqn:Hw.
  - apply writes_spec in Hw. apply writes_spec. lia.
  - apply writes_false in Hw. apply writes_false. lia.
Qed.

(** X15, witness: codes 72 and 104 in a run on 96 blank cells. *)
Lemma X15_case_insensitive_witness :
  cmap_cmap (font_of (repeat blank_cell 96)) !! 72 = Some "glyph00073"
  ∧ cmap_cmap (font_of (repeat blank_cell 96)) !! 104 = Some "glyph00073".
Proof.
  assert (65 ≤ 72 ≤ 90) as Hc by lia.
  pose proof (X15_case_insensitive (repeat blank_cell 96) 72 Hc) as H.
  split; [reflexivity|].
  change 104 with (72 + 32). rewrite <- H. reflexivity.
Defined.

(** ** The scan and the outlines *)

Section Scan.

Variable self : FontCreator.
Variable char_img : ndarray.

(** Induction over the pixel loop: what holds before the scan and is kept
    by drawing a pixel holds after the scan. *)
Lemma scan_cell_ind (P : scan_state → Prop) :
  P (mkScan TTGlyphPen_new false 0) →
  (∀ (st : scan_state) (x y : nat), P st → P (draw_pixel self x y st)) →
  P (scan_cell self char_img).
Proof.
  intros Hinit Hdraw. unfold scan_cell.
  destruct (shape char_img) as [height width].
  revert Hinit. generalize (mkScan TTGlyphPen_new false 0).
  generalize (seq 0 height).
  intros ys. induction ys as [|y ys IHy]; intros st0 Hst0; simpl; [exact Hst0|].
  apply IHy. unfold scan_row.
  generalize (seq 0 width) as xs. intros xs. revert st0 Hst0.
  induction xs as [|x xs IHx]; intros st0 Hst0; simpl; [exact Hst0|].
  apply IHx. unfold scan_pixel.
  destruct (getitem char_img y x) as [px|]; [|exact Hst0].
  destruct (negb (is_background px)); [apply Hdraw|]; exact Hst0.
Qed.

Lemma scan_cell_count : count_inv (scan_cell self char_img).
Proof.
  apply scan_cell_ind.
  - reflexivity.
  - intros st x y Hst. unfold count_inv in *. simpl.
    rewrite length_app, Hst. simpl. lia.
Qed.

Lemma scan_cell_no_open_path : pen_current (scan_pen (scan_cell self char_img)) = [].
Proof. apply scan_cell_ind; [reflexivity | intros; reflexivity]. Qed.

Lemma ink_pixels_bounds (x y : nat) :
  In (x, y) (ink_pixels char_img) →
  (x < length (hd [] char_img))%nat ∧ (y < length char_img)%nat.
Proof.
  unfold ink_pixels, shape. rewrite in_flat_map. intros (y' & Hy & Hin).
  apply in_map_iff in Hin as (x' & [= -> ->] & Hx).
  apply filter_In in Hx as [Hx _]. apply in_seq in Hx, Hy. lia.
Qed.

Lemma In_vectorize (c : contour) :
  scale self ≠ 0 →
  In c (vectorize self char_img) →
  (ink_pixels char_img = [] ∧ c = degenerate_path)
  ∨ ∃ xy : nat * nat, In xy (ink_pixels char_img)
                       ∧ c = drawn_square (scale self) xy.
Proof.
  intros Hs. rewrite (vectorize_eq _ _ Hs).
  destruct (ink_pixels char_img) as [|p ps] eqn:E.
  - intros [<-|[]]. by left.
  - rewrite <- E. intros Hin. apply in_map_iff in Hin as (xy & <- & Hxy).
    right. exists xy. split; [exact Hxy | reflexivity].
Qed.

Lemma length_vectorize :
  length (vectorize self char_img)
    = Nat.max 1 (length (ink_pixels char_img)).
Proof.
  rewrite vectorize_stored. destruct (ink_pixels char_img) as [|p ps] eqn:E.
  - reflexivity.
  - rewrite length_map. simpl. lia.
Qed.

Lemma point_count_squares (s : Z) (ps : list (nat * nat)) :
  point_count (map (drawn_square s) ps) = (4 * length ps)%nat.
Proof.
  unfold point_count. induction ps as [|[x y] ps IH]; [reflexivity|].
  cbn [map concat]. rewrite length_app, IH. simpl. lia.
Qed.

Lemma point_count_vectorize :
  scale self ≠ 0 →
  point_count (vectorize self char_img)
    = match ink_pixels char_img with
      | [] => 1%nat
      | _ => (4 * length (ink_pixels char_img))%nat
      end.
Proof.
  intros Hs. rewrite (vectorize_eq _ _ Hs).
  destruct (ink_pixels char_img) as [|p ps] eqn:E; [reflexivity|].
  rewrite <- E. apply point_count_squares.
Qed.

End Scan.

(** The loop variables after the scan of a rectangular image: [pixel_count]
    is the number of ink pixels and the number of closed paths,
    [has_pixels] is set exactly when there is ink, and no path is left
    open. *)
Theorem X9_scan_counters (self : FontCreator) (h w : nat) (char_img : ndarray) :
  is_cell h w char_img →
  let st := scan_cell self char_img in
  pixel_count st = Z.of_nat (ink_count char_img)
  ∧ length (pen_closed (scan_pen st)) = ink_count char_img
  ∧ (has_pixels st = true ↔ ink_count char_img ≠ 0%nat)
  ∧ pen_current (scan_pen st) = [].
Proof.
  intros Hcell. cbv zeta.
  assert (length (pen_closed (scan_pen (scan_cell self char_img)))
          = ink_count char_img) as Hlen.
  { rewrite scan_cell_closed, length_map. apply (length_ink_pixels h w), Hcell. }
  split; [|split; [exact Hlen|split]].
  - rewrite (scan_cell_count self char_img), Hlen. reflexivity.
  - pose proof (scan_cell_inv self char_img) as Hinv. unfold scan_inv in Hinv.
    rewrite Hinv, <- Hlen.
    destruct (pen_closed (scan_pen (scan_cell self char_img))); simpl.
    + split; intros H; contradiction.
    + split; intros _; discriminate.
  - apply scan_cell_no_open_path.
Qed.

(** X9, witness: the cell with one ink pixel. *)
Lemma X9_scan_counters_witness :
  pixel_count (scan_cell (FontCreator_init [dot_cell] 8 8) dot_cell) = 1
  ∧ has_pixels (scan_cell (FontCreator_init [dot_cell] 8 8) dot_cell) = true.
Proof.
  assert (is_cell 8 8 dot_cell) as Hcell.
  { split; [reflexivity|]. vm_compute. repeat constructor. }
  destruct (X9_scan_counters (FontCreator_init [dot_cell] 8 8) 8 8 dot_cell Hcell)
    as (Hcount & _ & Hhas & _).
  split.
  - rewrite Hcount. reflexivity.
  - apply Hhas. vm_compute. discriminate.
Defined.

(** The outline stored for a rectangular image with [n] ink pixels has
    [n] contours of four points each, [4 * n] points in all; with no ink it
    has the one contour of one point.  The maxima the code writes into the
    maxp table, 4 points and 1 contour a glyph, therefore hold exactly for
    the glyphs with at most one ink pixel: with two or more, the outline
    exceeds both. *)
Theorem X10_contours_of_an_outline (chars : list ndarray) (width height : Z)
    (h w : nat) (char_img : ndarray) :
  is_cell h w char_img →
  let outline := vectorize (FontCreator_init chars width height) char_img in
  let ink := ink_count char_img in
  length outline = Nat.max 1 ink
  ∧ point_count outline = (if decide (ink = 0%nat) then 1 else 4 * ink)%nat
  ∧ (∀ c : contour, In c outline →
       (ink ≠ 0%nat ∧ length c = 4%nat) ∨ (ink = 0%nat ∧ c = [(0, 0)]))
  ∧ (Z.of_nat (point_count outline) ≤ maxp_maxPoints
     ∧ Z.of_nat (length outline) ≤ maxp_maxContours ↔ (ink ≤ 1)%nat)
  ∧ ((2 ≤ ink)%nat →
     maxp_maxPoints < Z.of_nat (point_count outline)
     ∧ maxp_maxContours < Z.of_nat (length outline)).
Proof.
  intros Hcell. cbv zeta.
  set (self := FontCreator_init chars width height).
  assert (scale self ≠ 0) as Hs by (subst self; rewrite scale_init; lia).
  pose proof (length_ink_pixels h w _ Hcell) as Hink.
  assert (length (vectorize self char_img) = Nat.max 1 (ink_count char_img))
    as Hlen by (rewrite length_vectorize, Hink; reflexivity).
  assert (point_count (vectorize self char_img)
          = (if decide (ink_count char_img = 0%nat) then 1
             else 4 * ink_count char_img)%nat) as Hpts.
  { rewrite (point_count_vectorize _ _ Hs), <- Hink.
    destruct (ink_pixels char_img) as [|p ps]; [reflexivity|].
    rewrite decide_False by discriminate. reflexivity. }
  split; [exact Hlen|]. split; [exact Hpts|]. split; [|split].
  - intros c Hc. apply (In_vectorize _ _ _ Hs) in Hc as [[E ->]|([x y] & Hxy & ->)].
    + right. split; [|reflexivity]. rewrite <- Hink, E. reflexivity.
    + left. split; [|reflexivity]. rewrite <- Hink.
      destruct (ink_pixels char_img); [contradiction | discriminate].
  - rewrite Hlen, Hpts. unfold maxp_maxPoints, maxp_maxContours.
    destruct (decide (ink_count char_img = 0%nat)); lia.
  - intros Htwo. rewrite Hlen, Hpts. unfold maxp_maxPoints, maxp_maxContours.
    destruct (decide (ink_count char_img = 0%nat)); lia.
Qed.

(** X10, witness: the cell with one ink pixel has one contour of four
    points. *)
Lemma X10_contours_of_an_outline_witness :
  length (vectorize (FontCreator_init [dot_cell] 8 8) dot_cell) = 1%nat
  ∧ point_count (vectorize (FontCreator_init [dot_cell] 8 8) dot_cell) = 4%nat.
Proof.
  assert (is_cell 8 8 dot_cell) as Hcell.
  { split; [reflexivity|]. vm_compute. repeat constructor. }
  destruct (X10_contours_of_an_outline [dot_cell] 8 8 8 8 dot_cell Hcell)
    as (Hlen & Hpts & _).
  split.
  - rewrite Hlen. reflexivity.
  - rewrite Hpts. reflexivity.
Defined.

(** In a run whose images are at most 8 rows of at most 8 columns, every
    point of every outline of the font lies in the bounding box of the head
    table, from [(0, 0)] to [(1024, 1024)]. *)
Theorem X11_outlines_in_bounding_box (chars : list ndarray) (name : string)
    (g : glyph_outline) (c : contour) (pt : point) :
  Forall (λ img : ndarray,
            (length img ≤ 8)%nat ∧ (length (hd [] img) ≤ 8)%nat) chars →
  glyf_glyphs (font_of chars) !! name = Some g →
  In c g → In pt c →
  in_bbox (_create_head_table (FontCreator_init chars 8 8)) pt
  ∧ head_xMax (_create_head_table (FontCreator_init chars 8 8)) = 1024
  ∧ head_yMax (_create_head_table (FontCreator_init chars 8 8)) = 1024.
Proof.
  intros Hsmall Hg Hc Hpt. split; [|split; reflexivity].
  unfold in_bbox.
  change (head_xMin _) with 0. change (head_yMin _) with 0.
  change (head_xMax _) with 1024. change (head_yMax _) with 1024.
  rewrite font_of_unfold in Hg.
  cbn [glyf_glyphs set_cmap set_metric set_glyph] in Hg.
  rewrite lookup_insert in Hg. case_decide as Hname.
  { injection Hg as <-. destruct Hc as [<-|[]].
    destruct Hpt as [<-|[]]; simpl; lia. }
  unfold font_after_loop in Hg.
  apply loop_glyf_origin in Hg as [Hg | (k & img & Hk & ->)].
  - cbn [glyf_glyphs font_before_loop] in Hg.
    rewrite lookup_insert in Hg. case_decide; [|by rewrite lookup_empty in Hg].
    injection Hg as <-. destruct Hc as [<-|[]].
    destruct Hpt as [<-|[<-|[<-|[<-|[]]]]]; simpl; lia.
  - apply In_vectorize in Hc as [[_ ->]|([x y] & Hxy & ->)];
      [| |rewrite scale_init; lia].
    + destruct Hpt as [<-|[]]; simpl; lia.
    + apply ink_pixels_bounds in Hxy as [Hx Hy].
      pose proof (Forall_lookup_1 _ _ _ _ Hsmall Hk) as [Hh Hw].
      change (scale (FontCreator_init chars 8 8)) with 128 in Hpt.
      destruct Hpt as [<-|[<-|[<-|[<-|[]]]]]; simpl; lia.
Qed.

(** X11, witness: a corner of the square of the one-pixel cell. *)
Lemma X11_outlines_in_bounding_box_witness :
  in_bbox (_create_head_table (FontCreator_init [dot_cell] 8 8)) (512, 768).
Proof.
  assert (Forall (λ img : ndarray,
                    (length img ≤ 8)%nat ∧ (length (hd [] img) ≤ 8)%nat)
                 [dot_cell]) as Hsmall.
  { repeat constructor; vm_compute; lia. }
  assert (glyf_glyphs (font_of [dot_cell]) !! "glyph00001"
          = Some [[(384, 640); (512, 640); (512, 768); (384, 768)]]) as Hg
    by reflexivity.
  refine (proj1 (X11_outlines_in_bounding_box [dot_cell] "glyph00001" _
                   [(384, 640); (512, 640); (512, 768); (384, 768)]
                   (512, 768) Hsmall Hg _ _)).
  - left. reflexivity.
  - right. right. left. reflexivity.
Defined.

(** ** Cutting the image and the whole run *)

Lemma window_getitem (image_array : ndarray) (y_start x_start y x : nat) :
  getitem (window image_array y_start x_start) y x =
    if decide (y < 8 ∧ x < 8)%nat
    then getitem image_array (y_start + y) (x_start + x)
    else None.
Proof.
  unfold getitem, window.
  change (map ?f ?l) with (f <$> l).
  rewrite list_lookup_fmap, lookup_take, lookup_drop.
  destruct (decide (y < 8)%nat) as [Hy|Hy].
  - destruct (image_array !! (y_start + y)%nat) as [row|]; simpl.
    + rewrite lookup_take, lookup_drop.
      destruct (decide (x < 8)%nat) as [Hx|Hx].
      * by rewrite decide_True.
      * by rewrite decide_False by lia.
    + by destruct (decide _).
  - simpl. by rewrite decide_False by lia.
Qed.

Lemma window_is_cell (image_array : ndarray) (y_start x_start : nat) :
  (y_start + 8 ≤ length image_array)%nat →
  Forall (λ row : list pixel, (x_start + 8 ≤ length row)%nat) image_array →
  is_cell 8 8 (window image_array y_start x_start).
Proof.
  intros Hrows Hcols. unfold is_cell, window. split.
  - rewrite length_map, length_take, length_drop. lia.
  - apply List.Forall_forall. intros r Hr.
    apply in_map_iff in Hr as (row & <- & Hrow).
    rewrite length_take, length_drop.
    assert (In row image_array) as Hin.
    { apply list_elem_of_In. apply list_elem_of_In in Hrow.
      apply (subseteq_take 8), (subseteq_drop y_start) in Hrow. exact Hrow. }
    pose proof (proj1 (List.Forall_forall _ _) Hcols row Hin) as Hlen.
    cbv beta in Hlen. lia.
Qed.

Lemma extract_characters_lookup (image_array : ndarray) (k : nat) :
  (k < 96)%nat →
  extract_characters image_array !! k
    = Some (window image_array (k / 16 * 8) (k mod 16 * 8)).
Proof.
  intros Hk.
  do 96 (destruct k as [|k]; [reflexivity|]). lia.
Qed.

Lemma covers_grid_window (image_array : ndarray) (k : nat) :
  covers_grid image_array → (k < 96)%nat →
  is_cell 8 8 (window image_array (k / 16 * 8) (k mod 16 * 8)).
Proof.
  intros [Hrows Hcols] Hk. apply window_is_cell.
  - assert (k / 16 < 6)%nat by (apply Nat.Div0.div_lt_upper_bound; lia).
    lia.
  - eapply Forall_impl; [exact Hcols|]. intros row Hrow. cbv beta in Hrow.
    pose proof (Nat.mod_upper_bound k 16). lia.
Qed.

(** On an image of at least 48 rows of at least 128 pixels, cell [k] of
    [extract_characters] is the 8x8 window of grid row [k / 16] and grid
    column [k mod 16]: its pixel [(y, x)] is the pixel
    [(8 * (k / 16) + y, 8 * (k mod 16) + x)] of the image. *)
Theorem X12_cells_are_grid_windows (image_array : ndarray) (k : nat) :
  covers_grid image_array →
  (k < 96)%nat →
  ∃ cell : ndarray,
    extract_characters image_array !! k = Some cell
    ∧ is_cell 8 8 cell
    ∧ ∀ y x : nat, (y < 8)%nat → (x < 8)%nat →
        getitem cell y x
          = getitem image_array (k / 16 * 8 + y) (k mod 16 * 8 + x)
        ∧ is_Some (getitem cell y x).
Proof.
  intros Hgrid Hk. eexists. split; [apply extract_characters_lookup, Hk|].
  pose proof (covers_grid_window _ _ Hgrid Hk) as Hcell.
  split; [exact Hcell|]. intros y x Hy Hx. split.
  - rewrite window_getitem, decide_True by lia. reflexivity.
  - destruct Hcell as [Hlen Hall].
    destruct (lookup_lt_is_Some_2
                (window image_array (k / 16 * 8) (k mod 16 * 8)) y
                ltac:(lia)) as [row Hrow].
    pose proof (Forall_lookup_1 _ _ _ _ Hall Hrow) as Hw. simpl in Hw.
    destruct (lookup_lt_is_Some_2 row x ltac:(lia)) as [px Hpx].
    exists px. apply getitem_Some. eauto.
Qed.

(** X12, witness: cell 18 of the sample image holds the black pixel of row
    10, column 21 at its row 2, column 5. *)
Lemma X12_cells_are_grid_windows_witness :
  ∃ cell : ndarray,
    extract_characters sample_image !! 18%nat = Some cell
    ∧ getitem cell 2 5 = Some black_pixel.
Proof.
  assert (covers_grid sample_image) as Hgrid.
  { split; [vm_compute; lia|]. vm_compute. repeat constructor. }
  assert (18 < 96)%nat as Hk by lia.
  destruct (X12_cells_are_grid_windows sample_image 18 Hgrid Hk)
    as (cell & Hcell & _ & Hpx).
  exists cell. split; [exact Hcell|].
  rewrite (proj1 (Hpx 2%nat 5%nat ltac:(lia) ltac:(lia))). reflexivity.
Defined.

(** ** [ImageProcessor] and the debug images *)

Lemma length_append (s t : string) :
  String.length (s +:+ t) = (String.length s + String.length t)%nat.
Proof. induction s as [|a s IH]; simpl; [reflexivity | by rewrite IH]. Qed.

Lemma append_cancel_r (s1 s2 t : string) : s1 +:+ t = s2 +:+ t → s1 = s2.
Proof.
  revert s2. induction s1 as [|a s1 IH]; intros [|b s2] H; simpl in H.
  - reflexivity.
  - apply (f_equal String.length) in H. simpl in H.
    rewrite !length_append in H. simpl in H. lia.
  - apply (f_equal String.length) in H. simpl in H.
    rewrite !length_append in H. simpl in H. lia.
  - injection H as -> H. f_equal. apply IH, H.
Qed.

Lemma nat_of_str_format_03d (n : nat) :
  nat_of_str (ImageProcessor.format_03d n) = Some n.
Proof.
  unfold nat_of_str, ImageProcessor.format_03d, str_of_nat.
  rewrite (uint_of_string_zeros _ _ (Nat.to_uint n)) by apply NilEmpty.usu.
  simpl. rewrite of_uint_leading_zeros, DecimalNat.Unsigned.of_to.
  reflexivity.
Qed.

Lemma debug_name_inj (a b : nat) :
  ImageProcessor.debug_name a = ImageProcessor.debug_name b → a = b.
Proof.
  unfold ImageProcessor.debug_name. cbn [String.append]. intros H.
  injection H as H.
  pose proof (append_cancel_r (ImageProcessor.format_03d a)
                (ImageProcessor.format_03d b) ".png" H) as H'.
  apply (f_equal nat_of_str) in H'.
  rewrite !nat_of_str_format_03d in H'. congruence.
Qed.

(** A window that starts inside the image has a pixel; one that starts at
    or past its last row or last column has none. *)
Lemma window_not_empty (arr : ndarray) (y_start x_start : nat) :
  (y_start < length arr)%nat →
  Forall (λ row : list pixel, (x_start < length row)%nat) arr →
  ImageProcessor.is_empty (window arr y_start x_start) = false.
Proof.
  intros Hy Hx.
  destruct (lookup_lt_is_Some_2 arr y_start Hy) as [row Hrow].
  pose proof (Forall_lookup_1 _ _ _ _ Hx Hrow) as Hlen. cbv beta in Hlen.
  unfold ImageProcessor.is_empty, shape, window.
  rewrite (drop_S _ _ _ Hrow). cbn [take map length hd].
  rewrite length_take, length_drop.
  destruct (8 `min` (length row - x_start))%nat eqn:E; [lia | reflexivity].
Qed.

Lemma window_empty (arr : ndarray) (y_start x_start : nat) :
  (length arr ≤ y_start)%nat
  ∨ Forall (λ row : list pixel, (length row ≤ x_start)%nat) arr →
  ImageProcessor.is_empty (window arr y_start x_start) = true.
Proof.
  unfold ImageProcessor.is_empty, shape, window. intros [Hy|Hx].
  - rewrite drop_ge by exact Hy. reflexivity.
  - destruct (drop y_start arr) as [|row rest] eqn:E; [reflexivity|].
    assert (row ∈ arr) as Hin.
    { apply (subseteq_drop y_start). rewrite E. by left. }
    pose proof (proj1 (Forall_forall _ _) Hx row Hin) as Hlen.
    cbv beta in Hlen. cbn [take map length hd].
    rewrite drop_ge by exact Hlen. reflexivity.
Qed.

Section Extract.

Variable arr : ndarray.

Lemma extract_step_failed (row col : nat)
    (st : exception + ImageProcessor.loop_state) :
  save_failed st → save_failed (ImageProcessor.extract_step arr row st col).
Proof. intros [name ->]. by exists name. Qed.

Lemma fold_cols_failed (row : nat) (cols : list nat)
    (st : exception + ImageProcessor.loop_state) :
  save_failed st →
  save_failed (foldl (ImageProcessor.extract_step arr row) st cols).
Proof.
  revert st. induction cols as [|col cols IH]; intros st Hst; simpl.
  - exact Hst.
  - apply IH, extract_step_failed, Hst.
Qed.

Lemma fold_cols_ok (row : nat) (cols : list nat)
    (st : ImageProcessor.loop_state) :
  (∀ col : nat, In col cols →
     ImageProcessor.is_empty (window arr (row * 8) (col * 8)) = false) →
  foldl (ImageProcessor.extract_step arr row) (inr st) cols
    = inr (foldl (ImageProcessor.save_and_append arr row) st cols).
Proof.
  revert st. induction cols as [|col cols IH]; intros st Hok; simpl.
  - reflexivity.
  - rewrite (Hok col) by (by left). apply IH.
    intros c Hc. apply Hok. by right.
Qed.

Lemma fold_cols_empty (row col : nat) (cols : list nat)
    (st : exception + ImageProcessor.loop_state) :
  In col cols →
  ImageProcessor.is_empty (window arr (row * 8) (col * 8)) = true →
  (save_failed st ∨ ∃ s : ImageProcessor.loop_state, st = inr s) →
  save_failed (foldl (ImageProcessor.extract_step arr row) st cols).
Proof.
  intros Hcol Hempty. revert st.
  induction cols as [|c cols IH]; intros st Hst; [contradiction|].
  simpl. destruct Hst as [Hst|[s ->]].
  - apply fold_cols_failed, extract_step_failed, Hst.
  - destruct Hcol as [->|Hcol].
    + apply fold_cols_failed. simpl. rewrite Hempty. by eexists.
    + apply (IH Hcol). simpl.
      destruct (ImageProcessor.is_empty (window arr (row * 8) (c * 8)));
        [left; by eexists | right; by eexists].
Qed.

Lemma fold_cols_state (row : nat) (cols : list nat)
    (st : exception + ImageProcessor.loop_state) :
  (save_failed st ∨ ∃ s : ImageProcessor.loop_state, st = inr s) →
  save_failed (foldl (ImageProcessor.extract_step arr row) st cols)
  ∨ ∃ s : ImageProcessor.loop_state,
      foldl (ImageProcessor.extract_step arr row) st cols = inr s.
Proof.
  revert st. induction cols as [|c cols IH]; intros st Hst; [exact Hst|].
  simpl. apply IH. destruct Hst as [Hst|[s ->]].
  - left. apply extract_step_failed, Hst.
  - simpl. destruct (ImageProcessor.is_empty (window arr (row * 8) (c * 8)));
      [left; by eexists | right; by eexists].
Qed.

Local Abbreviation row_loop :=
  (λ (st : exception + ImageProcessor.loop_state) (row : nat),
     foldl (ImageProcessor.extract_step arr row) st (seq 0 16)).

Lemma fold_rows_ok (rows : list nat) (st : ImageProcessor.loop_state) :
  (∀ row col : nat, In row rows → In col (seq 0 16) →
     ImageProcessor.is_empty (window arr (row * 8) (col * 8)) = false) →
  foldl row_loop (inr st) rows
    = inr (foldl (λ (s : ImageProcessor.loop_state) (row : nat),
                    foldl (ImageProcessor.save_and_append arr row) s (seq 0 16))
                 st rows).
Proof.
  revert st. induction rows as [|row rows IH]; intros st Hok; cbn [foldl].
  - reflexivity.
  - rewrite fold_cols_ok by (intros col Hcol; apply Hok; [by left | exact Hcol]).
    apply IH. intros r c Hr Hc. apply Hok; [by right | exact Hc].
Qed.

Lemma fold_rows_empty (row col : nat) (rows : list nat)
    (st : exception + ImageProcessor.loop_state) :
  In row rows → In col (seq 0 16) →
  ImageProcessor.is_empty (window arr (row * 8) (col * 8)) = true →
  (save_failed st ∨ ∃ s : ImageProcessor.loop_state, st = inr s) →
  save_failed (foldl row_loop st rows).
Proof.
  intros Hrow Hcol Hempty. revert st.
  induction rows as [|r rows IH]; intros st Hst; [contradiction|].
  cbn [foldl]. destruct Hrow as [->|Hrow].
  - assert (save_failed
              (foldl (ImageProcessor.extract_step arr row) st (seq 0 16)))
      as Hfail by (apply (fold_cols_empty row col); assumption).
    clear Hst. revert Hfail.
    generalize (foldl (ImageProcessor.extract_step arr row) st (seq 0 16)).
    clear IH. induction rows as [|r rows IH]; intros st' Hst'; cbn [foldl].
    + exact Hst'.
    + apply IH, fold_cols_failed, Hst'.
  - apply (IH Hrow), fold_cols_state, Hst.
Qed.

Lemma extract_characters_ok :
  reaches_grid arr →
  ∃ saved : list (string * ndarray),
    ImageProcessor.extract_characters
      (ImageProcessor.mk "" (Some arr) 8 8)
      = inr (extract_characters arr, saved)
    ∧ map snd saved = extract_characters arr
    ∧ map fst saved = map ImageProcessor.debug_name (seq 32 96).
Proof.
  intros [Hrows Hcols]. eexists. split; [|split].
  - unfold ImageProcessor.extract_characters.
    cbn [ImageProcessor.image_array]. rewrite fold_rows_ok.
    + reflexivity.
    + intros row col Hrow Hcol. apply in_seq in Hrow, Hcol.
      apply window_not_empty; [lia|].
      eapply Forall_impl; [exact Hcols|]. intros r Hr. cbv beta in Hr. lia.
  - reflexivity.
  - reflexivity.
Qed.

Lemma extract_characters_fails :
  (length arr ≤ 40)%nat
  ∨ Forall (λ row : list pixel, (length row ≤ 120)%nat) arr →
  ∃ name : string,
    ImageProcessor.extract_characters
      (ImageProcessor.mk "" (Some arr) 8 8)
      = inl (LibraryError "Image.save" name).
Proof.
  intros Hsmall. unfold ImageProcessor.extract_characters.
  cbn [ImageProcessor.image_array].
  assert (save_failed (foldl row_loop (inr (ImageProcessor.mkLoop [] 32 []))
                             (seq 0 6))) as [name Hname].
  { apply (fold_rows_empty 5 15).
    - apply in_seq. lia.
    - apply in_seq. lia.
    - apply window_empty. destruct Hsmall as [H|H]; [left; lia|].
      right. eapply Forall_impl; [exact H|]. intros r Hr. cbv beta in Hr. lia.
    - right. by eexists. }
  exists name. cbv beta in Hname. rewrite Hname. reflexivity.
Qed.

End Extract.

(** [extract_characters] of an [ImageProcessor]: before an image is loaded
    it raises [ValueError]; a failed load raises [IOError] with the cause in
    its message.  After a load of an image of more than 40 rows of more
    than 120 pixels it returns the 96 windows of the grid in row-major
    order and has saved one debug image per cell, cell [k] under the name
    of code [32 + k], no two under the same name.  On an image of at most
    40 rows, or of rows of at most 120 pixels, a window of the grid has no
    pixel: the save of its debug image raises and nothing is returned. *)
Theorem X13_image_processor (path : string) (arr : ndarray) (cause : string) :
  let fresh := ImageProcessor.init path in
  ImageProcessor.extract_characters fresh
    = inl (ValueError "Image not loaded. Call load_image() first.")
  ∧ ImageProcessor.load_image (inl cause) fresh
    = inl (IOError ("Error loading PCX image: " +:+ cause))
  ∧ ∃ loaded : ImageProcessor.t,
      ImageProcessor.load_image (inr arr) fresh = inr (loaded, arr)
      ∧ ImageProcessor.detect_character_size loaded = (8, 8)
      ∧ (reaches_grid arr →
         ∃ saved : list (string * ndarray),
           ImageProcessor.extract_characters loaded
             = inr (extract_characters arr, saved)
           ∧ length (extract_characters arr) = 96%nat
           ∧ map snd saved = extract_characters arr
           ∧ map fst saved = map ImageProcessor.debug_name (seq 32 96)
           ∧ List.NoDup (map fst saved))
      ∧ ((length arr ≤ 40)%nat
         ∨ Forall (λ row : list pixel, (length row ≤ 120)%nat) arr →
         ∃ name : string,
           ImageProcessor.extract_characters loaded
             = inl (LibraryError "Image.save" name)).
Proof.
  cbv zeta. split; [reflexivity|]. split; [reflexivity|].
  eexists. split; [reflexivity|]. split; [reflexivity|]. split.
  - intros Hgrid.
    destruct (extract_characters_ok arr Hgrid) as (saved & Hex & Hsnd & Hfst).
    exists saved. split; [exact Hex|]. split; [reflexivity|].
    split; [exact Hsnd|]. split; [exact Hfst|].
    rewrite Hfst. apply Finite.Injective_map_NoDup; [|apply seq_NoDup].
    intros a b. apply debug_name_inj.
  - intros Hsmall. exact (extract_characters_fails arr Hsmall).
Qed.

(** X13, witness: the sample image of 48 rows of 128 pixels is cut into 96
    cells; an image of 8 rows cannot be cut. *)
Lemma X13_image_processor_witness :
  (∃ saved : list (string * ndarray),
     ImageProcessor.extract_characters
       (ImageProcessor.mk "font.pcx" (Some sample_image) 8 8)
       = inr (extract_characters sample_image, saved))
  ∧ ∃ name : string,
      ImageProcessor.extract_characters
        (ImageProcessor.mk "font.pcx" (Some blank_cell) 8 8)
        = inl (LibraryError "Image.save" name).
Proof.
  assert (reaches_grid sample_image) as Hgrid.
  { split; [vm_compute; lia|]. vm_compute. repeat constructor. }
  assert (length blank_cell ≤ 40)%nat as Hsmall by (vm_compute; lia).
  split.
  - destruct (X13_image_processor "font.pcx" sample_image "")
      as (_ & _ & loaded & Hload & _ & Hok & _).
    injection Hload as <-.
    destruct (Hok Hgrid) as (saved & Hex & _). exists saved. exact Hex.
  - destruct (X13_image_processor "font.pcx" blank_cell "")
      as (_ & _ & loaded & Hload & _ & _ & Hfail).
    injection Hload as <-. apply Hfail. left. exact Hsmall.
Defined.

(** ** From image pixels to outlines *)

Lemma In_square_vectorize (chars : list ndarray) (char_img : ndarray)
    (xy : nat * nat) :
  In (square_path xy) (vectorize (FontCreator_init chars 8 8) char_img)
  ↔ In xy (ink_pixels char_img).
Proof.
  split.
  - intros Hin.
    apply In_vectorize in Hin as [[_ H]|(p & Hp & H)];
      [| |rewrite scale_init; lia].
    + destruct xy. discriminate.
    + assert (xy = p) as -> by (apply square_path_inj; destruct p; exact H).
      exact Hp.
  - intros Hin. rewrite vectorize_eq by (rewrite scale_init; lia).
    destruct (ink_pixels char_img) as [|p ps]; [contradiction|].
    apply in_map_iff. exists xy. split; [|exact Hin].
    apply drawn_square_128.
Qed.

(** A whole run on an image of at least 48 rows of at least 128 pixels
    ends in the call of the writer (its outcome is the writer's: the file
    is written when the writer writes it), on a font in which the pixel at
    row [Y], column [X] of the image decides one square: the outline of the
    glyph of grid cell [16 * (Y / 8) + X / 8] has the square of position
    [(X mod 8, Y mod 8)] exactly when that pixel is not the background
    colour. *)
Theorem X14_pixel_to_square (image_array : ndarray)
    (pcx_path output_path : string) (save : writer) (Y X : nat) :
  covers_grid image_array →
  (Y < 48)%nat → (X < 128)%nat →
  let f := font_of (extract_characters image_array) in
  let k := (Y / 8 * 16 + X / 8)%nat in
  convert_pcx_to_ttf save (inr image_array) pcx_path output_path
    = hand_to_writer save f output_path
  ∧ (save f output_path = None →
     convert_pcx_to_ttf save (inr image_array) pcx_path output_path
       = Saved f output_path)
  ∧ ∃ g : glyph_outline,
      glyf_glyphs f !! glyph_name k = Some g
      ∧ (In (square_path ((X mod 8)%nat, (Y mod 8)%nat)) g ↔
         ∃ px : pixel, getitem image_array Y X = Some px
                       ∧ is_background px = false).
Proof.
  intros Hgrid HY HX. cbv zeta.
  assert (convert_pcx_to_ttf save (inr image_array) pcx_path output_path
          = hand_to_writer save (font_of (extract_characters image_array))
                           output_path) as Hrun.
  { assert (reaches_grid image_array) as Hreach.
    { destruct Hgrid as [Hrows Hcols]. split; [lia|].
      eapply Forall_impl; [exact Hcols|]. intros r Hr. cbv beta in Hr. lia. }
    destruct (extract_characters_ok image_array Hreach) as (saved & Hex & _).
    unfold convert_pcx_to_ttf.
    cbn [ImageProcessor.load_image ImageProcessor.init
         ImageProcessor.pcx_path ImageProcessor.char_width
         ImageProcessor.char_height ImageProcessor.detect_character_size].
    unfold ImageProcessor.extract_characters in *.
    cbn [ImageProcessor.image_array] in *.
    destruct (foldl _ _ (seq 0 6)) as [e|st]; [discriminate|].
    injection Hex as -> _. reflexivity. }
  split; [exact Hrun|]. split.
  { intros Hsave. rewrite Hrun. unfold hand_to_writer. by rewrite Hsave. }
  pose proof (Nat.div_mod_eq Y 8) as HYd. pose proof (Nat.div_mod_eq X 8) as HXd.
  pose proof (Nat.mod_upper_bound Y 8 ltac:(lia)) as HYm.
  pose proof (Nat.mod_upper_bound X 8 ltac:(lia)) as HXm.
  assert (X / 8 < 16)%nat as HXq by (apply Nat.Div0.div_lt_upper_bound; lia).
  assert (Y / 8 < 6)%nat as HYq by (apply Nat.Div0.div_lt_upper_bound; lia).
  set (k := (Y / 8 * 16 + X / 8)%nat).
  assert (k < 96)%nat as Hk by (unfold k; lia).
  assert ((k / 16 = Y / 8)%nat ∧ (k mod 16 = X / 8)%nat) as [Hq Hr].
  { unfold k. split.
    - rewrite Nat.div_add_l by lia. rewrite (Nat.div_small (X / 8) 16) by lia.
      lia.
    - rewrite Nat.add_comm, Nat.Div0.mod_add. apply Nat.mod_small. lia. }
  pose proof (extract_characters_lookup image_array k Hk) as Hcell.
  pose proof (covers_grid_window image_array k Hgrid Hk) as Hwf.
  rewrite Hq, Hr in Hcell, Hwf.
  set (cell := window image_array (Y / 8 * 8) (X / 8 * 8)) in *.
  exists (vectorize (FontCreator_init (extract_characters image_array) 8 8) cell).
  split; [apply (glyf_font_of _ k cell Hcell)|].
  rewrite In_square_vectorize.
  assert (getitem cell (Y mod 8) (X mod 8) = getitem image_array Y X) as Hpx.
  { unfold cell. rewrite window_getitem, decide_True by lia.
    f_equal; lia. }
  split.
  - intros Hin. apply ink_pixels_In, is_ink_getitem in Hin.
    by rewrite Hpx in Hin.
  - intros Hink. apply (In_ink_pixels 8 8); [exact Hwf|].
    apply is_ink_getitem. by rewrite Hpx.
Qed.

(** X14, witness: the black pixel at row 10, column 21 of the sample image
    gives the glyph of cell 18 the square of position (5, 2). *)
Lemma X14_pixel_to_square_witness :
  ∃ g : glyph_outline,
    glyf_glyphs (font_of (extract_characters sample_image)) !! "glyph00019"
      = Some g
    ∧ In [(640, 640); (768, 640); (768, 768); (640, 768)] g.
Proof.
  assert (covers_grid sample_image) as Hgrid.
  { split; [vm_compute; lia|]. vm_compute. repeat constructor. }
  destruct (X14_pixel_to_square sample_image "font.pcx" "out.ttf"
              obliging_writer 10 21 Hgrid ltac:(lia) ltac:(lia))
    as (_ & _ & g & Hg & Hsq).
  exists g. split; [exact Hg|].
  apply Hsq. exists black_pixel. split; reflexivity.
Defined.
